(** * sentence-compressor: the corpus loader [compression_data.py]

    A shallow embedding of the sentence token extractor, the compression
    normalizer ([get_compression_tokens]), the alignment labeler
    ([get_labels]), the batch loader ([load_compression_data]) and the
    record generator ([get_compression_json]), with the properties the
    specification states about them and further ones read off the code.

    Modelling conventions.
    - The module is Python 2 code ([map] returns a list, whose [len] is
      taken).  Text is modelled as [string], a sequence of 8-bit
      characters.  The code works on the unicode text [json.loads]
      returns, whose [lower] also turns capitals outside the ASCII range
      into small letters; [Py.lower] follows it on text in the ASCII
      range only ([Py.isascii]), and a statement that depends on the
      case of letters is made for such text.
    - A call either returns a value or raises; the [while] loop of
      [get_labels] is run with fuel, and running out of it is a third
      outcome that is shown never to happen.
    - [dict] is [gmap], [set] is [gset], a list indexed by position is a
      [list] with stdpp's lookup and insert, bounds checked as Python
      does. *)

From Stdlib Require Import ZArith Ascii String List Permutation Sorted Lia.
From stdpp Require Import base option list sorting gmap strings.

Local Open Scope string_scope.
Local Open Scope Z_scope.
Local Open Scope list_scope.

(** ** Outcomes of a call *)

Inductive exn : Type :=
  | AssertionError
  | IndexError.

Inductive outcome (A : Type) : Type :=
  | Returns (a : A)
  | Raises (e : exn)
  | OutOfFuel.

Arguments Returns {A} a.
Arguments Raises {A} e.
Arguments OutOfFuel {A}.

#[global] Instance outcome_ret : MRet outcome := fun A a => Returns a.

#[global] Instance outcome_bind : MBind outcome := fun A B k m =>
  match m with
  | Returns a => k a
  | Raises e => Raises e
  | OutOfFuel => OutOfFuel
  end.

(** ** Python strings *)

Module Py.

(** [c.lower()] for a character [c] of the ASCII range; the characters
    beyond it are left as they are, which is not what the code does with
    a capital among them. *)
Definition lower_char (c : ascii) : ascii :=
  let n := nat_of_ascii c in
  if ((65 <=? n) && (n <=? 90))%nat then ascii_of_nat (n + 32) else c.

(** [s.lower()] for text in the ASCII range. *)
Fixpoint lower (s : string) : string :=
  match s with
  | EmptyString => EmptyString
  | String c s' => String (lower_char c) (lower s')
  end.

(** A character of the ASCII range, and text made of such characters. *)
Definition isascii_char (c : ascii) : bool := (nat_of_ascii c <? 128)%nat.

Fixpoint isascii (s : string) : bool :=
  match s with
  | EmptyString => true
  | String c s' => isascii_char c && isascii s'
  end.

(** A slice bound [i] of a sequence of length [len]: negative bounds
    count from the end, and every bound is clamped to [0..len]. *)
Definition clamp (len i : Z) : Z :=
  if i <? 0 then Z.max 0 (len + i) else Z.min i len.

(** [s[start:stop]], an absent bound being [None]. *)
Definition slice (s : string) (start stop : option Z) : string :=
  let len := Z.of_nat (String.length s) in
  let lo := from_option (clamp len) 0 start in
  let hi := from_option (clamp len) len stop in
  String.substring (Z.to_nat lo) (Z.to_nat (hi - lo)) s.

(** [s.startswith(p)] *)
Fixpoint startswith (s p : string) : bool :=
  match p with
  | EmptyString => true
  | String b p' =>
      match s with
      | EmptyString => false
      | String a s' => Ascii.eqb a b && startswith s' p'
      end
  end.

(** [s.endswith(p)]: [p] is [s], or ends what follows the first
    character of [s]. *)
Fixpoint endswith (s p : string) : bool :=
  if String.eqb s p then true
  else match s with
       | EmptyString => false
       | String _ s' => endswith s' p
       end.

(** [c in s] *)
Fixpoint contains (s : string) (c : ascii) : bool :=
  match s with
  | EmptyString => false
  | String a s' => Ascii.eqb a c || contains s' c
  end.

(** The first field of [s] and the fields after it, for a one-character
    separator. *)
Fixpoint split_fields (sep : ascii) (s : string) : string * list string :=
  match s with
  | EmptyString => (EmptyString, [])
  | String c s' =>
      let '(w, ws) := split_fields sep s' in
      if Ascii.eqb c sep then (EmptyString, w :: ws) else (String c w, ws)
  end.

(** [s.split(sep)] for a one-character [sep]: never empty, and two
    adjacent separators enclose an empty field. *)
Definition split (s : string) (sep : ascii) : list string :=
  let '(w, ws) := split_fields sep s in w :: ws.

(** [sep.join(l)] *)
Fixpoint join (sep : string) (l : list string) : string :=
  match l with
  | [] => EmptyString
  | [w] => w
  | w :: ws => w +:+ sep +:+ join sep ws
  end.

(** [c.isspace()] for a character of a byte string: the space and the
    five control characters from tab to carriage return. *)
Definition isspace (c : ascii) : bool :=
  let n := nat_of_ascii c in
  ((n =? 32) || ((9 <=? n) && (n <=? 13)))%nat.

(** [s.lstrip()] *)
Fixpoint lstrip (s : string) : string :=
  match s with
  | EmptyString => EmptyString
  | String c s' => if isspace c then lstrip s' else s
  end.

(** [s.rstrip()] *)
Fixpoint rstrip (s : string) : string :=
  match s with
  | EmptyString => EmptyString
  | String c s' =>
      match rstrip s' with
      | EmptyString => if isspace c then EmptyString else String c EmptyString
      | r => String c r
      end
  end.

(** [s.strip()] *)
Definition strip (s : string) : string := rstrip (lstrip s).

(** [l[i]] for an index [i >= 0]: out of range raises. *)
Definition getitem {A : Type} (l : list A) (i : nat) : outcome A :=
  match l !! i with
  | Some x => Returns x
  | None => Raises IndexError
  end.

(** [l[i] = x] for an index [i >= 0]: out of range raises. *)
Definition setitem {A : Type} (l : list A) (i : nat) (x : A) : outcome (list A) :=
  if decide (i < length l)%nat then Returns (<[i:=x]> l) else Raises IndexError.

(** The truth value of an optional integer argument: [None] and [0] are
    false. *)
Definition truthy (v : option Z) : bool :=
  match v with
  | None => false
  | Some n => negb (n =? 0)
  end.

(** [sorted(l, key=key)]: the sort is stable, an element going in front
    of the elements after it whose key is not smaller. *)
Section Sort.
Context {A : Type} (key : A → Z).

Fixpoint insert_by_key (x : A) (l : list A) : list A :=
  match l with
  | [] => [x]
  | y :: l' => if key x <=? key y then x :: y :: l' else y :: insert_by_key x l'
  end.

Fixpoint sort (l : list A) : list A :=
  match l with
  | [] => []
  | x :: l' => insert_by_key x (sort l')
  end.
End Sort.

End Py.

(** ** Data model *)

(** One entry of a node's ["word"] list. *)
Record word : Type := Word {
  word_id : Z;
  word_form : string;
  word_tag : string;
  word_stem : string
}.

(** One element of [json_object["graph"]["node"]]. *)
Record node : Type := Node {
  node_word : list word
}.

(** A parsed record, as [get_compression_json] yields it. *)
Record json_object : Type := JsonObject {
  graph_sentence : string;
  graph_node : list node;
  compression_text : string
}.

(** The tuple [(id, form, tag, stem)] of a sentence token. *)
Definition sentence_token : Type := Z * string * string * string.

Definition token_id (t : sentence_token) : Z := t.1.1.1.
Definition token_form (t : sentence_token) : string := t.1.1.2.
Definition token_tag (t : sentence_token) : string := t.1.2.
Definition token_stem (t : sentence_token) : string := t.2.

(** [Token = namedtuple("Token", "form tag stem label")] *)
Record Token : Type := mkToken {
  form : string;
  tag : string;
  stem : string;
  label : Z
}.

(** The two labels of [get_labels]. *)
Definition KEEP : Z := 0.
Definition DELETE : Z := 1.

(** ** Sentence token extraction (compression_json_to_example, lines 67-78) *)

(** The body of the inner [for word in forms["word"]].  [word["id"] is
    not -1] compares identities; CPython keeps one object per small
    integer, so for an integer id it is the test [id != -1]. *)
Definition collect_word (sentence_tokens : list sentence_token) (w : word)
  : list sentence_token :=
  if negb (word_id w =? -1)
  then sentence_tokens ++ [(word_id w, word_form w, word_tag w, word_stem w)]
  else sentence_tokens.

(** The two nested loops, appending to [sentence_tokens]. *)
Definition collect_tokens (nodes : list node) : list sentence_token :=
  foldl (fun acc forms => foldl collect_word acc (node_word forms)) [] nodes.

(** [sentence_tokens] after [sentence_tokens.sort(key=lambda x: x[0])]. *)
Definition extract_sentence_tokens (json : json_object) : list sentence_token :=
  Py.sort token_id (collect_tokens (graph_node json)).

(** ** The alignment labeler (get_labels, lines 97-123) *)

(** The variables of the loop.  The two cursors start at 0 and only grow,
    so they are natural numbers. *)
Record loop_state : Type := LoopState {
  labels : list Z;
  sentence_index : nat;
  compression_index : nat
}.

(** The condition of the [while]. *)
Definition loop_test (sentence_tokens compression_tokens : list string)
    (st : loop_state) : bool :=
  (sentence_index st <? length sentence_tokens)%nat
  && (compression_index st <? length compression_tokens)%nat.

(** One iteration of the [while]. *)
Definition loop_body (sentence_tokens compression_tokens : list string)
    (st : loop_state) : outcome loop_state :=
  sentence_token ← Py.getitem sentence_tokens (sentence_index st);
  compression_token ← Py.getitem compression_tokens (compression_index st);
  if String.eqb sentence_token compression_token then
    labels' ← Py.setitem (labels st) (sentence_index st) 0;
    mret (LoopState labels' (S (sentence_index st)) (S (compression_index st)))
  else
    mret (LoopState (labels st) (S (sentence_index st)) (compression_index st)).

(** The [while] loop, with at most [fuel] iterations. *)
Fixpoint while_loop (fuel : nat) (sentence_tokens compression_tokens : list string)
    (st : loop_state) : outcome loop_state :=
  if loop_test sentence_tokens compression_tokens st then
    match fuel with
    | O => OutOfFuel
    | S fuel' =>
        st' ← loop_body sentence_tokens compression_tokens st;
        while_loop fuel' sentence_tokens compression_tokens st'
    end
  else Returns st.

Definition get_labels_fuel (fuel : nat)
    (sentence_tokens compression_tokens : list string) : outcome (list Z) :=
  let sentence_tokens_length := length sentence_tokens in
  let compression_tokens_length := length compression_tokens in
  if (compression_tokens_length <=? sentence_tokens_length)%nat then
    st ← while_loop fuel sentence_tokens compression_tokens
           (LoopState (replicate sentence_tokens_length 1) 0 0);
    mret (labels st)
  else Raises AssertionError.

(** [get_labels]: every iteration advances the sentence cursor, so one
    unit of fuel per sentence token is enough (lemma
    [get_labels_fuel_enough]). *)
Definition get_labels (sentence_tokens compression_tokens : list string)
  : outcome (list Z) :=
  get_labels_fuel (length sentence_tokens) sentence_tokens compression_tokens.

(** The sentence cursor at the first test of the [while] at which the
    compression cursor is [j], if there is one. *)
Fixpoint cursor_reached (fuel : nat) (sentence_tokens compression_tokens : list string)
    (st : loop_state) (j : nat) : option nat :=
  if (compression_index st =? j)%nat then Some (sentence_index st)
  else if loop_test sentence_tokens compression_tokens st then
    match fuel with
    | O => None
    | S fuel' =>
        match loop_body sentence_tokens compression_tokens st with
        | Returns st' => cursor_reached fuel' sentence_tokens compression_tokens st' j
        | _ => None
        end
    end
  else None.

(** ** The compression normalizer (get_compression_tokens, lines 126-208) *)

(** The dict literal, its entries stored in the order written. *)
Definition special_abbreviations : gmap string string :=
  foldl (fun d kv => <[kv.1 := kv.2]> d) ∅
    [("co", "co."); ("corp", "corp."); ("ltd", "ltd."); ("inc", "inc.");
     ("va", "va."); ("wis", "wis."); ("pa", "pa."); ("st", "st.");
     ("mass", "mass."); ("ont", "ont."); ("mass", "mass."); ("v", "v.");
     ("calif", "calif."); ("app", "app.")].

(** Internal tokens do not end with a comma (lines 156-157). *)
Definition strip_comma (token : string) : string :=
  if Py.endswith token "," then Py.slice token None (Some (-1)) else token.

(** Handle special abbreviations (lines 160-162). *)
Definition handle_abbreviation (token_forms_set : gset string) (token : string)
  : string :=
  match special_abbreviations !! token with
  | Some punctuated =>
      if bool_decide (punctuated ∈ token_forms_set) then punctuated else token
  | None => token
  end.

(** The [if]/[elif] chain (lines 164-206), appending to
    [compression_tokens]. *)
Definition append_token (compression_tokens : list string) (token : string)
  : list string :=
  if String.eqb token "'s" then compression_tokens ++ [token]
  else if Py.endswith token "'s" then
    (compression_tokens ++ [Py.slice token None (Some (-2))])
      ++ [Py.slice token (Some (-2)) None]
  else if Py.endswith token "n't" then
    (compression_tokens ++ [Py.slice token None (Some (-3))])
      ++ [Py.slice token (Some (-3)) None]
  else if Py.endswith token "%" then
    (compression_tokens ++ [Py.slice token None (Some (-1))])
      ++ [Py.slice token (Some (-1)) None]
  else if String.eqb token "-" then compression_tokens
  else if String.eqb token ":" then compression_tokens
  else if String.eqb token ";" then compression_tokens
  else if String.eqb token "" then compression_tokens
  else if String.eqb token "/" then compression_tokens
  else if String.eqb token "!" then compression_tokens
  else if String.eqb token "different." then compression_tokens ++ ["different"]
  else if String.eqb token "prisoner." then compression_tokens ++ ["prisoner"]
  else if String.eqb token "bar." then compression_tokens ++ ["bar"]
  else if String.eqb token "declared." then compression_tokens ++ ["declared"]
  else if Py.startswith token "``" && Py.endswith token "''" then
    ((compression_tokens ++ ["``"])
       ++ [Py.slice token (Some 2) (Some (-2))]) ++ ["''"]
  else if Py.startswith token "(" then
    compression_tokens ++ [Py.slice token (Some 1) None]
  else if Py.endswith token ")" then
    compression_tokens ++ [Py.slice token None (Some (-1))]
  else if Py.endswith token "?" then
    compression_tokens ++ [Py.slice token None (Some (-1))]
  else compression_tokens ++ [token].

(** The body of [for token in compression[:-1].split(" ")]. *)
Definition normalize_token (token_forms_set : gset string)
    (compression_tokens : list string) (token : string) : list string :=
  append_token compression_tokens
    (handle_abbreviation token_forms_set (strip_comma token)).

Definition get_compression_tokens (sentence_tokens : list sentence_token)
    (compression : string) : list string :=
  let token_forms := map (fun token => Py.lower (token_form token)) sentence_tokens in
  let token_forms_set : gset string := list_to_set token_forms in
  let compression := Py.lower compression in
  foldl (normalize_token token_forms_set) []
    (Py.split (Py.slice compression None (Some (-1))) " ").

(** ** One record (compression_json_to_example, lines 58-94) *)

Definition compression_json_to_example (json : json_object) : outcome (list Token) :=
  let sentence := graph_sentence json in
  let compression := compression_text json in
  let sentence_tokens := extract_sentence_tokens json in
  let compression_tokens := get_compression_tokens sentence_tokens compression in
  let lowercase_tokens := map (fun x => Py.lower (token_form x)) sentence_tokens in
  labels ← get_labels lowercase_tokens compression_tokens;
  mret (foldl (fun example '(label, sentence_token) =>
                 example ++ [mkToken (token_form sentence_token)
                                     (token_tag sentence_token)
                                     (token_stem sentence_token) label])
              [] (zip labels sentence_tokens)).

(** ** The batch loader (load_compression_data, lines 31-38) *)

(** The [for] loop over the records the generator yields.  Besides
    [examples] it gives back the records the generator was never asked
    for. *)
Fixpoint load_loop (limit : option Z) (examples : list (list Token))
    (records : list json_object)
  : outcome (list (list Token) * list json_object) :=
  match records with
  | [] => Returns (examples, [])
  | compression_json :: rest =>
      example ← compression_json_to_example compression_json;
      let examples := examples ++ [example] in
      if Py.truthy limit
         && bool_decide (Some (Z.of_nat (length examples)) = limit)
      then Returns (examples, rest)
      else load_loop limit examples rest
  end.

(** [load_compression_data], the file at [path] replaced by the records
    [get_compression_json(path)] yields from it. *)
Definition load_compression_data (records : list json_object) (limit : option Z)
  : outcome (list (list Token)) :=
  r ← load_loop limit [] records;
  mret r.1.

(** ** The record generator (get_compression_json, lines 41-55) *)

(** What asking the generator for its next item gives: a parsed record,
    or the [ValueError] [json.loads] raises on a text that is not JSON. *)
Inductive yielded : Type :=
  | Record (json : json_object)
  | ValueError.

(** What [load_compression_data(path, limit)] ends in, the generator
    included. *)
Inductive loaded : Type :=
  | Examples (examples : list (list Token))
  | RaisedValueError
  | RaisedInRecord (e : exn)
  | Diverged.

Section Generator.
(** [json.loads], on the texts the generator hands to it. *)
Variable loads : string → yielded.

(** The [for line in lines] loop and the [if data] after it: the texts
    handed to [json.loads], in order.  [data] holds the lines since the
    last empty one; [lines] are the lines already stripped. *)
Fixpoint record_texts (data : list string) (lines : list string) : list string :=
  match lines with
  | [] => match data with
          | [] => []
          | _ => [Py.join " " data]
          end
  | line :: lines' =>
      if String.eqb line "" then Py.join " " data :: record_texts [] lines'
      else record_texts (data ++ [line]) lines'
  end.

(** [get_compression_json], the file at [path] replaced by its lines
    [gzip_in]; an item is computed when the loop asks for it. *)
Definition get_compression_json (gzip_in : list string) : list yielded :=
  map loads (record_texts [] (map Py.strip gzip_in)).

(** The [for] loop of [load_compression_data] over the generator. *)
Fixpoint load_stream (limit : option Z) (examples : list (list Token))
    (stream : list yielded) : loaded :=
  match stream with
  | [] => Examples examples
  | ValueError :: _ => RaisedValueError
  | Record compression_json :: rest =>
      match compression_json_to_example compression_json with
      | Returns example =>
          let examples := examples ++ [example] in
          if Py.truthy limit
             && bool_decide (Some (Z.of_nat (length examples)) = limit)
          then Examples examples
          else load_stream limit examples rest
      | Raises e => RaisedInRecord e
      | OutOfFuel => Diverged
      end
  end.

(** [load_compression_data(path, limit)] for a file of lines [gzip_in]. *)
Definition load_compression_data_path (gzip_in : list string) (limit : option Z)
  : loaded :=
  load_stream limit [] (get_compression_json gzip_in).
End Generator.

(** The outcome of the loader on parsed records, as an end of the loader
    on a file. *)
Definition loaded_of (o : outcome (list (list Token))) : loaded :=
  match o with
  | Returns examples => Examples examples
  | Raises e => RaisedInRecord e
  | OutOfFuel => Diverged
  end.

(** The lines of a file written record by record: after the lines of
    each record comes the separator line paired with them; [last] are the
    lines after the last separator. *)
Definition file_lines (records : list (list string * string)) (last : list string)
  : list string :=
  concat (map (fun r => r.1 ++ [r.2]) records) ++ last.

(** A line of white space only, and a line with something else in it. *)
Definition blank (line : string) : Prop := Py.strip line = "".

(** A token of the normalizer's kind: left as it is by [Py.lower] and
    without a space. *)
Definition comparable (t : string) : Prop :=
  Py.lower t = t ∧ Py.contains t " " = false.

(** A string of white space characters only. *)
Fixpoint all_space (s : string) : bool :=
  match s with
  | EmptyString => true
  | String c s' => Py.isspace c && all_space s'
  end.

(** A file in which no record line is blank and every separator is. *)
Definition well_separated (records : list (list string * string))
    (last : list string) : Prop :=
  Forall (fun r => Forall (fun line => ¬ blank line) r.1 ∧ blank r.2) records
  ∧ Forall (fun line => ¬ blank line) last.

(** The text of a record: its lines, stripped, joined by single spaces. *)
Definition record_text (lines : list string) : string :=
  Py.join " " (map Py.strip lines).

(** The Token of a sentence token labelled DELETE. *)
Definition deleted (t : sentence_token) : Token :=
  mkToken (token_form t) (token_tag t) (token_stem t) DELETE.

(** ** Specification-side definitions *)

(** The labeler as the specification words it: every position starts as
    DELETE; on equality the position is KEEP and both cursors advance,
    otherwise only the sentence cursor advances. *)
Fixpoint greedy_labels (sentence compression : list string) : list Z :=
  match sentence with
  | [] => []
  | x :: sentence' =>
      match compression with
      | [] => DELETE :: greedy_labels sentence' []
      | y :: compression' =>
          if String.eqb x y then KEEP :: greedy_labels sentence' compression'
          else DELETE :: greedy_labels sentence' compression
      end
  end.

(** The sentence forms at the positions labelled KEEP, in order. *)
Definition kept_forms (sentence : list string) (ls : list Z) : list string :=
  (filter (fun p => p.2 = KEEP) (zip sentence ls)).*1.

(** The number of KEEP labels. *)
Definition keep_count (ls : list Z) : nat := length (filter (fun l => l = KEEP) ls).

(** The tuple kept for a word. *)
Definition word_tuple (w : word) : sentence_token :=
  (word_id w, word_form w, word_tag w, word_stem w).

(** The word candidates of a token graph, node after node, and those of
    them that are not the sentinel. *)
Definition candidates (json : json_object) : list word :=
  concat (map node_word (graph_node json)).

Definition proper_candidates (json : json_object) : list sentence_token :=
  map word_tuple (filter (fun w => word_id w ≠ -1) (candidates json)).

(** Ascending and strictly ascending by id. *)
Definition ascending (l : list sentence_token) : Prop :=
  StronglySorted (fun a b => token_id a ≤ token_id b) l.

Definition strictly_ascending (l : list sentence_token) : Prop :=
  StronglySorted (fun a b => token_id a < token_id b) l.

(** A token graph in which one node yields two words for one id. *)
Definition duplicate_ids : json_object :=
  JsonObject "New York"
    [Node [Word (-1) "ROOT" "ROOT" "ROOT"];
     Node [Word 0 "New" "NNP" "New"; Word 0 "York" "NNP" "York"]]
    "New York.".

(** The examples of a sequence of records, one after the other; the first
    record that raises ends it. *)
Fixpoint convert_all (records : list json_object) : outcome (list (list Token)) :=
  match records with
  | [] => Returns []
  | compression_json :: rest =>
      example ← compression_json_to_example compression_json;
      examples ← convert_all rest;
      mret (example :: examples)
  end.

(** The test that leaves the loop of [load_compression_data], on the
    number of examples collected. *)
Definition limit_hit (limit : option Z) (n : nat) : bool :=
  Py.truthy limit && bool_decide (Some (Z.of_nat n) = limit).

(** How many records [load_compression_data] asks the generator for. *)
Definition consumed (limit : option Z) (records : list json_object) : nat :=
  match limit with
  | Some n => if 0 <? n then Nat.min (Z.to_nat n) (length records)
              else length records
  | None => length records
  end.

(** The record of the specification's first scenario. *)
Definition scenario1 : json_object :=
  JsonObject "The co. filed."
    [Node [Word 0 "The" "DT" "the"]; Node [Word 1 "co." "NN" "co."];
     Node [Word 2 "filed" "VBD" "file"]]
    "The co. filed.".

(** A record whose sentence keeps [isn't] in one token, while the
    normalizer splits it in two. *)
Definition scenario2 : json_object :=
  JsonObject "He isn't here."
    [Node [Word 0 "He" "PRP" "he"]; Node [Word 1 "isn't" "VBZ" "be"];
     Node [Word 2 "here" "RB" "here"]]
    "He isn't here.".

(** The entries of the abbreviation table. *)
Definition abbreviation_entries : list (string * string) :=
  [("co", "co."); ("corp", "corp."); ("ltd", "ltd."); ("inc", "inc.");
   ("va", "va."); ("wis", "wis."); ("pa", "pa."); ("st", "st.");
   ("mass", "mass."); ("ont", "ont."); ("v", "v."); ("calif", "calif.");
   ("app", "app.")].

(** The text a token sequence is written as: the tokens joined by single
    spaces, followed by a terminating character. *)
Definition text_of (tokens : list string) (terminator : ascii) : string :=
  Py.join " " tokens +:+ String terminator "".

(** A token the normalizer has nothing left to do on: [Py.lower] leaves
    it as it is (a token in the ASCII range is then lower case), it
    holds no space, does not end with a comma, is not an abbreviation
    whose punctuated form is in the sentence, and is either ['s] itself
    or caught by none of the conditions of the [if]/[elif] chain. *)
Definition settled (token_forms_set : gset string) (token : string) : bool :=
  String.eqb (Py.lower token) token
  && negb (Py.contains token " ")
  && negb (Py.endswith token ",")
  && match special_abbreviations !! token with
     | Some punctuated => negb (bool_decide (punctuated ∈ token_forms_set))
     | None => true
     end
  && (String.eqb token "'s"
      || negb (Py.endswith token "'s" || Py.endswith token "n't"
               || Py.endswith token "%"
               || String.eqb token "-" || String.eqb token ":"
               || String.eqb token ";" || String.eqb token ""
               || String.eqb token "/" || String.eqb token "!"
               || String.eqb token "different." || String.eqb token "prisoner."
               || String.eqb token "bar." || String.eqb token "declared."
               || Py.startswith token "``" && Py.endswith token "''"
               || Py.startswith token "(" || Py.endswith token ")"
               || Py.endswith token "?")).

(** The Token the last loop of [compression_json_to_example] builds from
    a pair of [zip(labels, sentence_tokens)]. *)
Definition token_of (p : Z * sentence_token) : Token :=
  mkToken (token_form p.2) (token_tag p.2) (token_stem p.2) p.1.

(** The labels set to KEEP so far sit behind the sentence cursor, on
    sentence tokens equal to a compression token behind the compression
    cursor. *)
Definition kept_behind (s c : list string) (ls : list Z) (si ci : nat) : Prop :=
  ∀ i, ls !! i = Some KEEP →
    (i < si)%nat ∧ ∃ k, (k < ci)%nat ∧ c !! k = s !! i.

(** The state in which [get_labels] enters its loop. *)
Definition initial_state (sentence_tokens : list string) : loop_state :=
  LoopState (replicate (length sentence_tokens) 1) 0 0.

(** ** Some runs *)

Example split_two_spaces : Py.split "a  b" " " = ["a"; ""; "b"].
Proof. reflexivity. Qed.

Example split_empty : Py.split "" " " = [""].
Proof. reflexivity. Qed.

Example slice_examples :
  Py.slice "isn't" None (Some (-3)) = "is" ∧
  Py.slice "isn't" (Some (-3)) None = "n't" ∧
  Py.slice "``a''" (Some 2) (Some (-2)) = "a" ∧
  Py.slice "" None (Some (-1)) = "" ∧
  Py.slice "(x)" (Some 1) None = "x)".
Proof. repeat split; reflexivity. Qed.

Example lower_example : Py.lower "The Co. Filed." = "the co. filed.".
Proof. reflexivity. Qed.

Example scenario1_run :
  compression_json_to_example scenario1
  = Returns [mkToken "The" "DT" "the" 0; mkToken "co." "NN" "co." 0;
             mkToken "filed" "VBD" "file" 0].
Proof. vm_compute. reflexivity. Qed.

(** * Properties *)

(** ** The alignment labeler *)

Section Labeler.
Variables sentence_tokens compression_tokens : list string.

Lemma loop_test_true st :
  loop_test sentence_tokens compression_tokens st = true ↔
  (sentence_index st < length sentence_tokens)%nat
  ∧ (compression_index st < length compression_tokens)%nat.
Proof.
  unfold loop_test. rewrite andb_true_iff, !Nat.ltb_lt. done.
Qed.

Lemma loop_test_false st :
  loop_test sentence_tokens compression_tokens st = false ↔
  (length sentence_tokens ≤ sentence_index st)%nat
  ∨ (length compression_tokens ≤ compression_index st)%nat.
Proof.
  unfold loop_test. rewrite andb_false_iff, !Nat.ltb_ge. done.
Qed.

(** What one iteration does, when the test let it run and [labels] is as
    long as the sentence: nothing is raised. *)
Lemma loop_body_returns st :
  length (labels st) = length sentence_tokens →
  loop_test sentence_tokens compression_tokens st = true →
  ∃ x y,
    sentence_tokens !! sentence_index st = Some x
    ∧ compression_tokens !! compression_index st = Some y
    ∧ loop_body sentence_tokens compression_tokens st
      = Returns (if String.eqb x y
                 then LoopState (<[sentence_index st := KEEP]> (labels st))
                        (S (sentence_index st)) (S (compression_index st))
                 else LoopState (labels st)
                        (S (sentence_index st)) (compression_index st)).
Proof.
  intros Hlen [Hs Hc]%loop_test_true.
  destruct (lookup_lt_is_Some_2 _ _ Hs) as [x Hx].
  destruct (lookup_lt_is_Some_2 _ _ Hc) as [y Hy].
  exists x, y. split; [done|]. split; [done|].
  unfold loop_body, Py.getitem, Py.setitem. rewrite Hx, Hy. cbn.
  destruct (String.eqb x y); [|done].
  rewrite decide_True by lia. done.
Qed.

End Labeler.

Lemma greedy_labels_nil_r (s : list string) :
  greedy_labels s [] = replicate (length s) DELETE.
Proof. induction s as [|x s IH]; cbn; [done|]. by rewrite IH. Qed.

Lemma greedy_labels_length (s c : list string) :
  length (greedy_labels s c) = length s.
Proof.
  revert c. induction s as [|x s IH]; intros c; cbn; [done|].
  destruct c as [|y c]; [|destruct (String.eqb x y)]; cbn; by rewrite IH.
Qed.

Lemma greedy_labels_binary (s c : list string) :
  Forall (fun l => l = KEEP ∨ l = DELETE) (greedy_labels s c).
Proof.
  revert c. induction s as [|x s IH]; intros c; cbn; [constructor|].
  destruct c as [|y c]; [|destruct (String.eqb x y)]; constructor; auto.
Qed.

(** The loop computes the greedy labels of what lies ahead of the two
    cursors, and leaves the labels behind the sentence cursor alone. *)
Lemma while_loop_returns (fuel : nat) (s c : list string) (st : loop_state) :
  length (labels st) = length s →
  (length s - sentence_index st ≤ fuel)%nat →
  drop (sentence_index st) (labels st)
    = replicate (length s - sentence_index st) DELETE →
  ∃ st', while_loop fuel s c st = Returns st'
    ∧ labels st' = take (sentence_index st) (labels st)
                   ++ greedy_labels (drop (sentence_index st) s)
                                    (drop (compression_index st) c).
Proof.
  revert st. induction fuel as [|fuel IH]; intros st Hlen Hfuel Hrest.
  - cbn. destruct (loop_test s c st) eqn:Ht.
    { apply loop_test_true in Ht. lia. }
    exists st. split; [done|].
    apply loop_test_false in Ht as [Hs|Hc].
    + rewrite (drop_ge s), take_ge by lia. cbn. by rewrite app_nil_r.
    + rewrite (drop_ge c), greedy_labels_nil_r by lia.
      rewrite length_drop, <- Hrest. by rewrite take_drop.
  - cbn. destruct (loop_test s c st) eqn:Ht.
    2:{ exists st. split; [done|].
        apply loop_test_false in Ht as [Hs|Hc].
        + rewrite (drop_ge s), take_ge by lia. cbn. by rewrite app_nil_r.
        + rewrite (drop_ge c), greedy_labels_nil_r by lia.
          rewrite length_drop, <- Hrest. by rewrite take_drop. }
    destruct (loop_body_returns s c st Hlen Ht) as (x & y & Hx & Hy & Hbody).
    apply loop_test_true in Ht as [Hs Hc].
    rewrite Hbody. cbn.
    rewrite (drop_S s x _ Hx), (drop_S c y _ Hy). cbn.
    assert (Hrest' : drop (S (sentence_index st)) (labels st)
                     = replicate (length s - S (sentence_index st)) DELETE).
    { replace (S (sentence_index st)) with (sentence_index st + 1)%nat by lia.
      rewrite <- drop_drop, Hrest, drop_replicate. f_equal. lia. }
    destruct (String.eqb x y).
    + edestruct (IH (LoopState (<[sentence_index st := KEEP]> (labels st))
                      (S (sentence_index st)) (S (compression_index st))))
        as (st' & Hrun & Hlab); cbn.
      * by rewrite length_insert.
      * lia.
      * by rewrite drop_insert_lt by lia.
      * exists st'. split; [done|]. rewrite Hlab. cbn.
        rewrite (take_S_r _ _ KEEP) by (apply list_lookup_insert_eq; lia).
        rewrite take_insert_ge by lia. by rewrite <- app_assoc.
    + destruct (lookup_lt_is_Some_2 (labels st) (sentence_index st)) as [l Hl];
        [lia|].
      assert (l = DELETE) as ->.
      { rewrite (drop_S _ _ _ Hl) in Hrest.
        destruct (length s - sentence_index st)%nat; cbn in Hrest; congruence. }
      edestruct (IH (LoopState (labels st)
                      (S (sentence_index st)) (compression_index st)))
        as (st' & Hrun & Hlab); cbn; [done|lia|done|].
      exists st'. split; [done|]. rewrite Hlab. cbn.
      rewrite (drop_S c y _ Hy).
      rewrite (take_S_r _ _ DELETE) by done. by rewrite <- app_assoc.
Qed.

(** With the precondition, any fuel of at least the sentence length
    returns the greedy labels. *)
Lemma get_labels_fuel_greedy (fuel : nat) (s c : list string) :
  (length c ≤ length s)%nat → (length s ≤ fuel)%nat →
  get_labels_fuel fuel s c = Returns (greedy_labels s c).
Proof.
  intros Hpre Hfuel. unfold get_labels_fuel.
  rewrite (proj2 (Nat.leb_le _ _)) by done.
  destruct (while_loop_returns fuel s c (initial_state s)) as (st' & Hrun & Hlab);
    unfold initial_state; cbn;
    [by rewrite length_replicate|lia|by rewrite Nat.sub_0_r|].
  unfold initial_state in Hrun. rewrite Hrun. cbn. by rewrite Hlab.
Qed.

Lemma get_labels_fuel_assert (fuel : nat) (s c : list string) :
  (length s < length c)%nat →
  get_labels_fuel fuel s c = Raises AssertionError.
Proof.
  intros Hpre. unfold get_labels_fuel.
  by rewrite (proj2 (Nat.leb_gt _ _)) by done.
Qed.

(** More fuel than the sentence length changes nothing. *)
Lemma get_labels_fuel_enough (fuel : nat) (s c : list string) :
  (length s ≤ fuel)%nat → get_labels_fuel fuel s c = get_labels s c.
Proof.
  intros Hfuel. unfold get_labels.
  destruct (decide (length c ≤ length s)%nat).
  - by rewrite !get_labels_fuel_greedy.
  - rewrite !get_labels_fuel_assert by lia. done.
Qed.

Lemma get_labels_cases (s c : list string) :
  ((length c ≤ length s)%nat ∧ get_labels s c = Returns (greedy_labels s c))
  ∨ ((length s < length c)%nat ∧ get_labels s c = Raises AssertionError).
Proof.
  destruct (decide (length c ≤ length s)%nat) as [Hle|Hgt].
  - left. split; [done|]. by apply get_labels_fuel_greedy.
  - right. split; [lia|]. apply get_labels_fuel_assert. lia.
Qed.

(** C2: [get_labels] raises if and only if there are more compression
    tokens than sentence tokens, and then it is the assertion that fails;
    with at most as many compression tokens as sentence tokens it returns
    its labels, and the loop never needs more iterations than it is
    given. *)
Theorem get_labels_raises_iff (s c : list string) :
  ((∃ e, get_labels s c = Raises e) ↔ (length s < length c)%nat)
  ∧ ((∃ ls, get_labels s c = Returns ls) ↔ (length c ≤ length s)%nat)
  ∧ (∀ e, get_labels s c = Raises e → e = AssertionError)
  ∧ get_labels s c ≠ OutOfFuel.
Proof.
  destruct (get_labels_cases s c) as [[Hle Hrun]|[Hgt Hrun]]; rewrite Hrun.
  - repeat split; try done; try lia.
    + intros [e He]. done.
    + eauto.
  - repeat split; try done; try lia.
    + eauto.
    + intros [ls Hls]. done.
    + intros e He. congruence.
Qed.

Lemma kept_forms_cons (x : string) (l : Z) (s : list string) (ls : list Z) :
  kept_forms (x :: s) (l :: ls)
  = if decide (l = KEEP) then x :: kept_forms s ls else kept_forms s ls.
Proof.
  unfold kept_forms. cbn [zip zip_with]. rewrite filter_cons. cbn.
  by destruct (decide (l = KEEP)).
Qed.

Lemma keep_count_cons (l : Z) (ls : list Z) :
  keep_count (l :: ls) = if decide (l = KEEP) then S (keep_count ls) else keep_count ls.
Proof.
  unfold keep_count. rewrite filter_cons. by destruct (decide (l = KEEP)).
Qed.

(** The kept forms are the compression tokens that found their match. *)
Lemma kept_forms_greedy (s c : list string) :
  kept_forms s (greedy_labels s c) = take (keep_count (greedy_labels s c)) c.
Proof.
  revert c. induction s as [|x s IH]; intros c.
  - done.
  - destruct c as [|y c]; cbn [greedy_labels].
    + rewrite kept_forms_cons, keep_count_cons, IH.
      rewrite !decide_False by done. done.
    + destruct (String.eqb x y) eqn:Hxy.
      * apply String.eqb_eq in Hxy as ->.
        rewrite kept_forms_cons, keep_count_cons, IH.
        rewrite !decide_True by done. done.
      * rewrite kept_forms_cons, keep_count_cons, IH.
        rewrite !decide_False by done. done.
Qed.

(** C3: under the length precondition [get_labels] returns the labels of
    the forward greedy two-cursor match; the sentence forms at the KEEP
    positions, in order, are a prefix of the compression tokens, namely
    as many of them as there are KEEP labels; and a run with any
    sufficient number of iterations gives the same labels. *)
Theorem get_labels_greedy (s c : list string) :
  (length c ≤ length s)%nat →
  ∃ ls, get_labels s c = Returns ls
    ∧ ls = greedy_labels s c
    ∧ kept_forms s ls `prefix_of` c
    ∧ kept_forms s ls = take (keep_count ls) c
    ∧ ∀ fuel, (length s ≤ fuel)%nat → get_labels_fuel fuel s c = Returns ls.
Proof.
  intros Hpre. exists (greedy_labels s c).
  split; [by apply get_labels_fuel_greedy|]. split; [done|].
  rewrite kept_forms_greedy. split; [apply prefix_take|]. split; [done|].
  intros fuel Hfuel. by apply get_labels_fuel_greedy.
Qed.

Lemma get_labels_greedy_witness :
  ∃ ls, get_labels ["the"; "big"; "co."; "filed"] ["the"; "filed"] = Returns ls
    ∧ ls = greedy_labels ["the"; "big"; "co."; "filed"] ["the"; "filed"]
    ∧ kept_forms ["the"; "big"; "co."; "filed"] ls `prefix_of` ["the"; "filed"]
    ∧ kept_forms ["the"; "big"; "co."; "filed"] ls
      = take (keep_count ls) ["the"; "filed"]
    ∧ ∀ fuel, (length ["the"; "big"; "co."; "filed"] ≤ fuel)%nat →
        get_labels_fuel fuel ["the"; "big"; "co."; "filed"] ["the"; "filed"]
        = Returns ls.
Proof.
  apply (get_labels_greedy ["the"; "big"; "co."; "filed"] ["the"; "filed"]).
  cbn. lia.
Defined.

(** The loop that builds the example appends one Token per pair. *)
Lemma foldl_append_map {A B : Type} (f : A → B) (g : list B → A → list B)
    (l : list A) (acc : list B) :
  (∀ example a, g example a = example ++ [f a]) →
  foldl g acc l = acc ++ map f l.
Proof.
  intros Hg. revert acc. induction l as [|a l IH]; intros acc; cbn.
  - by rewrite app_nil_r.
  - rewrite IH, Hg. by rewrite <- app_assoc.
Qed.

Lemma compression_json_to_example_bind (json : json_object) :
  compression_json_to_example json
  = ls ← get_labels
           (map (fun x => Py.lower (token_form x)) (extract_sentence_tokens json))
           (get_compression_tokens (extract_sentence_tokens json)
                                   (compression_text json));
    mret (map token_of (zip ls (extract_sentence_tokens json))).
Proof.
  unfold compression_json_to_example.
  destruct (get_labels _ _) as [ls| |]; cbn; [|done|done].
  f_equal. rewrite (foldl_append_map token_of); [done|].
  by intros example [l tok].
Qed.

(** C4: under the length precondition [get_labels] returns one label per
    sentence token, each of them KEEP (0) or DELETE (1); and the example
    built from a record has one Token per sentence token, carrying that
    token's form, tag and stem and the label at its position. *)
Theorem labels_count_and_binary :
  (∀ s c : list string,
     (length c ≤ length s)%nat →
     ∃ ls, get_labels s c = Returns ls
       ∧ length ls = length s
       ∧ Forall (fun l => l = 0 ∨ l = 1) ls)
  ∧ (∀ json : json_object,
       let sentence_tokens := extract_sentence_tokens json in
       let lowercase_tokens :=
         map (fun x => Py.lower (token_form x)) sentence_tokens in
       let compression_tokens :=
         get_compression_tokens sentence_tokens (compression_text json) in
       (length compression_tokens ≤ length sentence_tokens)%nat →
       ∃ example,
         compression_json_to_example json = Returns example
         ∧ length example = length sentence_tokens
         ∧ map (fun t => (form t, tag t, stem t)) example
           = map (fun x => (token_form x, token_tag x, token_stem x))
                 sentence_tokens
         ∧ get_labels lowercase_tokens compression_tokens
           = Returns (map label example)).
Proof.
  split.
  - intros s c Hpre. exists (greedy_labels s c).
    split; [by apply get_labels_fuel_greedy|].
    split; [apply greedy_labels_length|apply greedy_labels_binary].
  - intros json sentence_tokens lowercase_tokens compression_tokens Hpre.
    assert (Hrun : get_labels lowercase_tokens compression_tokens
                   = Returns (greedy_labels lowercase_tokens compression_tokens)).
    { apply get_labels_fuel_greedy; [|done].
      unfold lowercase_tokens. by rewrite length_map. }
    assert (Hlen : length (greedy_labels lowercase_tokens compression_tokens)
                   = length sentence_tokens).
    { rewrite greedy_labels_length. unfold lowercase_tokens.
      by rewrite length_map. }
    exists (map token_of
              (zip (greedy_labels lowercase_tokens compression_tokens)
                   sentence_tokens)).
    split; [|split; [|split]].
    + rewrite compression_json_to_example_bind.
      fold sentence_tokens lowercase_tokens compression_tokens.
      by rewrite Hrun.
    + rewrite length_map, length_zip. lia.
    + rewrite map_map. cbn.
      rewrite <- (snd_zip (greedy_labels lowercase_tokens compression_tokens)
                    sentence_tokens) at 2 by lia.
      by rewrite <- list_fmap_compose.
    + rewrite Hrun. f_equal. rewrite map_map. cbn.
      rewrite <- (fst_zip (greedy_labels lowercase_tokens compression_tokens)
                    sentence_tokens) at 1 by lia.
      done.
Qed.

Lemma labels_count_and_binary_witness :
  (∃ ls, get_labels ["the"; "big"; "co."] ["the"; "co."] = Returns ls
     ∧ length ls = length ["the"; "big"; "co."]
     ∧ Forall (fun l => l = 0 ∨ l = 1) ls)
  ∧ (∃ example,
       compression_json_to_example scenario1 = Returns example
       ∧ length example = length (extract_sentence_tokens scenario1)
       ∧ map (fun t => (form t, tag t, stem t)) example
         = map (fun x => (token_form x, token_tag x, token_stem x))
               (extract_sentence_tokens scenario1)
       ∧ get_labels
           (map (fun x => Py.lower (token_form x))
                (extract_sentence_tokens scenario1))
           (get_compression_tokens (extract_sentence_tokens scenario1)
                                   (compression_text scenario1))
         = Returns (map label example)).
Proof.
  split.
  - apply (proj1 labels_count_and_binary ["the"; "big"; "co."] ["the"; "co."]).
    cbn. lia.
  - apply (proj2 labels_count_and_binary scenario1).
    vm_compute. lia.
Defined.

(** *** Compression tokens that find no match *)

Lemma keep_count_app (l k : list Z) :
  keep_count (l ++ k) = (keep_count l + keep_count k)%nat.
Proof. unfold keep_count. by rewrite filter_app, length_app. Qed.

Lemma keep_count_insert (l : list Z) (i : nat) (v : Z) :
  l !! i = Some v → v ≠ KEEP →
  keep_count (<[i := KEEP]> l) = S (keep_count l).
Proof.
  intros Hi Hv.
  rewrite <- (take_drop_middle l i v Hi) at 2.
  rewrite insert_take_drop by (by eapply lookup_lt_Some).
  rewrite !keep_count_app, !keep_count_cons.
  rewrite decide_True, decide_False by done. lia.
Qed.

(** A compression token equal to none of the sentence tokens from the
    sentence cursor on stops the compression cursor for good. *)
Lemma while_loop_no_match (fuel : nat) (s c : list string) (st : loop_state)
    (t : string) :
  length (labels st) = length s →
  (length s - sentence_index st ≤ fuel)%nat →
  c !! compression_index st = Some t →
  (∀ i, (sentence_index st ≤ i)%nat → s !! i ≠ Some t) →
  ∃ st', while_loop fuel s c st = Returns st'
    ∧ labels st' = labels st
    ∧ compression_index st' = compression_index st.
Proof.
  revert st. induction fuel as [|fuel IH]; intros st Hlen Hfuel Ht Hno; cbn.
  - destruct (loop_test s c st) eqn:Htest; [|by exists st].
    apply loop_test_true in Htest. lia.
  - destruct (loop_test s c st) eqn:Htest; [|by exists st].
    destruct (loop_body_returns s c st Hlen Htest) as (x & y & Hx & Hy & Hbody).
    rewrite Hbody. cbn. rewrite Ht in Hy. injection Hy as <-.
    destruct (String.eqb x t) eqn:Hxt.
    { apply String.eqb_eq in Hxt as ->. by destruct (Hno (sentence_index st)). }
    destruct (IH (LoopState (labels st) (S (sentence_index st))
                    (compression_index st))) as (st' & Hrun & Hlab & Hci); cbn;
      [done|lia|done|intros i Hi; apply Hno; lia|].
    by exists st'.
Qed.

Lemma while_loop_until (fuel : nat) (s c : list string) (st : loop_state)
    (j p : nat) (t : string) :
  length (labels st) = length s →
  (length s - sentence_index st ≤ fuel)%nat →
  kept_behind s c (labels st) (sentence_index st) (compression_index st) →
  (compression_index st ≤ j)%nat →
  cursor_reached fuel s c st j = Some p →
  c !! j = Some t →
  (∀ i, (p ≤ i)%nat → s !! i ≠ Some t) →
  ∃ st', while_loop fuel s c st = Returns st'
    ∧ compression_index st' = j
    ∧ keep_count (labels st')
      = (keep_count (labels st) + (j - compression_index st))%nat
    ∧ kept_behind s c (labels st') p j.
Proof.
  revert st.
  induction fuel as [|fuel IH]; intros st Hlen Hfuel Hinv Hci Hreach Ht Hno.
  - cbn in Hreach.
    destruct (Nat.eqb_spec (compression_index st) j) as [<-|Hne].
    + injection Hreach as <-.
      destruct (while_loop_no_match 0 s c st t) as (st' & Hrun & Hlab & Hci');
        [done..|].
      exists st'. rewrite Hlab. split_and!; [done|done|lia|done].
    + by destruct (loop_test s c st).
  - cbn in Hreach.
    destruct (Nat.eqb_spec (compression_index st) j) as [<-|Hne].
    + injection Hreach as <-.
      destruct (while_loop_no_match (S fuel) s c st t)
        as (st' & Hrun & Hlab & Hci'); [done..|].
      exists st'. rewrite Hlab. split_and!; [done|done|lia|done].
    + destruct (loop_test s c st) eqn:Htest; [|done].
      destruct (loop_body_returns s c st Hlen Htest)
        as (x & y & Hx & Hy & Hbody).
      rewrite Hbody in Hreach. cbn. rewrite Htest, Hbody. cbn.
      destruct (String.eqb x y) eqn:Hxy.
      * apply String.eqb_eq in Hxy as ->.
        destruct (lookup_lt_is_Some_2 (labels st) (sentence_index st))
          as [v Hv]; [apply loop_test_true in Htest; lia|].
        assert (v ≠ KEEP) as Hvk.
        { intros ->. apply Hinv in Hv. lia. }
        destruct (IH (LoopState (<[sentence_index st := KEEP]> (labels st))
                        (S (sentence_index st)) (S (compression_index st))))
          as (st' & Hrun & Hci' & Hcount & Hinv'); cbn;
          [by rewrite length_insert|lia| |lia|done..|].
        { intros i Hi.
          destruct (decide (i = sentence_index st)) as [->|Hi'].
          - split; [lia|]. exists (compression_index st).
            split; [lia|congruence].
          - rewrite list_lookup_insert_ne in Hi by done.
            destruct (Hinv i Hi) as (? & k & ? & ?).
            split; [lia|]. exists k. split; [lia|done]. }
        exists st'. split_and!; [done|done| |done].
        rewrite Hcount. cbn [labels compression_index].
        rewrite (keep_count_insert _ _ v) by done. lia.
      * destruct (IH (LoopState (labels st) (S (sentence_index st))
                        (compression_index st)))
          as (st' & Hrun & Hci' & Hcount & Hinv'); cbn;
          [done|lia| |lia|done..|].
        { intros i Hi. destruct (Hinv i Hi) as (? & k & ? & ?).
          split; [lia|]. by exists k. }
        exists st'. split_and!; [done|done| |done].
        rewrite Hcount. cbn [labels compression_index]. lia.
Qed.

Lemma keep_count_replicate_delete (n : nat) : keep_count (replicate n DELETE) = 0%nat.
Proof.
  induction n as [|n IH]; [done|]. cbn [replicate].
  rewrite keep_count_cons. by rewrite decide_False.
Qed.

(** C5: when the compression token at position [j] equals no sentence
    token at or after the sentence cursor [p] reached together with it,
    [get_labels] still returns; exactly the [j] tokens before it produced
    a KEEP, so neither it nor any later compression token did; every KEEP
    sits before [p] on a sentence token equal to one of those earlier
    compression tokens; and every other position, all of those from [p]
    on among them, still has the DELETE it started with. *)
Theorem unmatched_token_is_silent (s c : list string) (j p : nat) (t : string) :
  (length c ≤ length s)%nat →
  c !! j = Some t →
  cursor_reached (length s) s c (initial_state s) j = Some p →
  (∀ i, (p ≤ i)%nat → s !! i ≠ Some t) →
  ∃ ls, get_labels s c = Returns ls
    ∧ length ls = length s
    ∧ keep_count ls = j
    ∧ (∀ i, ls !! i = Some KEEP →
         (i < p)%nat ∧ ∃ k, (k < j)%nat ∧ c !! k = s !! i)
    ∧ (∀ i, (p ≤ i < length s)%nat → ls !! i = Some DELETE)
    ∧ (∀ i l, ls !! i = Some l → l ≠ KEEP → l = DELETE).
Proof.
  intros Hpre Ht Hreach Hno.
  pose proof (get_labels_fuel_greedy (length s) s c Hpre (Nat.le_refl _)) as Hg.
  destruct (while_loop_until (length s) s c (initial_state s) j p t)
    as (st' & Hrun & Hci & Hcount & Hinv); unfold initial_state in *; cbn;
    [by rewrite length_replicate|lia| |lia|done..|].
  { intros i Hi. apply lookup_replicate in Hi as [? ?]. done. }
  assert (Hls : labels st' = greedy_labels s c).
  { unfold get_labels_fuel in Hg.
    rewrite (proj2 (Nat.leb_le _ _)) in Hg by done.
    rewrite Hrun in Hg. cbn in Hg. unfold mret, outcome_ret in Hg. congruence. }
  assert (Hbin : ∀ i l, labels st' !! i = Some l → l ≠ KEEP → l = DELETE).
  { intros i l Hl Hk. rewrite Hls in Hl.
    pose proof (greedy_labels_binary s c) as Hall.
    rewrite Forall_lookup in Hall. destruct (Hall i l Hl); done. }
  exists (labels st'). split_and!.
  - unfold get_labels. by rewrite Hg, Hls.
  - by rewrite Hls, greedy_labels_length.
  - rewrite Hcount. cbn [labels compression_index].
    change (replicate (length s) 1) with (replicate (length s) DELETE).
    rewrite keep_count_replicate_delete. lia.
  - done.
  - intros i [Hpi Hi].
    destruct (lookup_lt_is_Some_2 (labels st') i) as [l Hl].
    { by rewrite Hls, greedy_labels_length. }
    rewrite Hl. f_equal. apply (Hbin i l Hl).
    intros ->. apply Hinv in Hl. lia.
  - done.
Qed.

Lemma unmatched_token_is_silent_witness :
  ∃ ls, get_labels ["the"; "big"; "co."; "filed"] ["the"; "company"; "filed"]
        = Returns ls
    ∧ length ls = length ["the"; "big"; "co."; "filed"]
    ∧ keep_count ls = 1%nat
    ∧ (∀ i, ls !! i = Some KEEP →
         (i < 1)%nat
         ∧ ∃ k, (k < 1)%nat
             ∧ ["the"; "company"; "filed"] !! k
               = ["the"; "big"; "co."; "filed"] !! i)
    ∧ (∀ i, (1 ≤ i < length ["the"; "big"; "co."; "filed"])%nat →
         ls !! i = Some DELETE)
    ∧ (∀ i l, ls !! i = Some l → l ≠ KEEP → l = DELETE).
Proof.
  apply (unmatched_token_is_silent
           ["the"; "big"; "co."; "filed"] ["the"; "company"; "filed"]
           1 1 "company").
  - cbn. lia.
  - reflexivity.
  - reflexivity.
  - intros i Hi. destruct i as [|[|[|[|i]]]]; cbn; [lia|discriminate..].
Defined.

Example unmatched_run :
  get_labels ["the"; "big"; "co."; "filed"] ["the"; "company"; "filed"]
  = Returns [KEEP; DELETE; DELETE; DELETE].
Proof. reflexivity. Qed.

(** ** The sentence token extractor *)

Section SortFacts.
Context {A : Type} (key : A → Z).

Lemma insert_by_key_perm (x : A) (l : list A) :
  Py.insert_by_key key x l ≡ₚ x :: l.
Proof.
  induction l as [|y l IH]; cbn; [done|].
  destruct (key x <=? key y); [done|].
  rewrite IH. apply Permutation_swap.
Qed.

Lemma sort_perm (l : list A) : Py.sort key l ≡ₚ l.
Proof.
  induction l as [|x l IH]; cbn; [done|].
  by rewrite insert_by_key_perm, IH.
Qed.

Lemma insert_by_key_sorted (x : A) (l : list A) :
  StronglySorted (fun a b => key a ≤ key b) l →
  StronglySorted (fun a b => key a ≤ key b) (Py.insert_by_key key x l).
Proof.
  induction 1 as [|y l Hl IH Hy]; cbn.
  - repeat constructor.
  - destruct (Z.leb_spec (key x) (key y)) as [Hxy|Hxy].
    + constructor; [by constructor|].
      constructor; [done|].
      eapply Forall_impl; [exact Hy|]. cbn. intros; lia.
    + constructor; [done|].
      rewrite insert_by_key_perm. constructor; [lia|done].
Qed.

Lemma sort_sorted (l : list A) :
  StronglySorted (fun a b => key a ≤ key b) (Py.sort key l).
Proof.
  induction l as [|x l IH]; cbn; [constructor|].
  by apply insert_by_key_sorted.
Qed.

(** Stability: among the elements of one key, the order is kept. *)
Lemma insert_by_key_stable (k : Z) (x : A) (l : list A) :
  filter (fun a => key a = k) (Py.insert_by_key key x l)
  = filter (fun a => key a = k) (x :: l).
Proof.
  induction l as [|y l IH]; cbn; [done|].
  destruct (Z.leb_spec (key x) (key y)) as [Hxy|Hxy]; [done|].
  rewrite (filter_cons _ y), IH, !filter_cons.
  destruct (decide (key y = k)), (decide (key x = k)); try done. lia.
Qed.

Lemma sort_stable (k : Z) (l : list A) :
  filter (fun a => key a = k) (Py.sort key l) = filter (fun a => key a = k) l.
Proof.
  induction l as [|x l IH]; cbn; [done|].
  by rewrite insert_by_key_stable, !filter_cons, IH.
Qed.

Lemma sorted_nodup_strict (l : list A) :
  StronglySorted (fun a b => key a ≤ key b) l →
  NoDup (map key l) →
  StronglySorted (fun a b => key a < key b) l.
Proof.
  induction 1 as [|y l Hl IH Hy]; cbn; [constructor|].
  intros [Hnotin Hnd]%NoDup_cons. constructor; [by apply IH|].
  rewrite Forall_forall in Hy. apply Forall_forall. intros b Hb.
  assert (key y ≠ key b).
  { intros Heq. apply Hnotin. rewrite Heq. by apply list_elem_of_fmap_2. }
  specialize (Hy b Hb). lia.
Qed.
End SortFacts.

Lemma foldl_collect_word (acc : list sentence_token) (ws : list word) :
  foldl collect_word acc ws
  = acc ++ map word_tuple (filter (fun w => word_id w ≠ -1) ws).
Proof.
  revert acc. induction ws as [|w ws IH]; intros acc; cbn [foldl].
  - by rewrite app_nil_r.
  - rewrite IH, filter_cons. unfold collect_word.
    destruct (Z.eqb_spec (word_id w) (-1)) as [Heq|Hne]; cbn.
    + by rewrite decide_False by (intros ?; done).
    + rewrite decide_True by done. cbn. by rewrite <- app_assoc.
Qed.

(** The two loops collect the non-sentinel candidates, in graph order. *)
Lemma collect_tokens_candidates (json : json_object) :
  collect_tokens (graph_node json) = proper_candidates json.
Proof.
  unfold collect_tokens, proper_candidates, candidates.
  rewrite <- (app_nil_l (map word_tuple _)).
  generalize (@nil sentence_token) as acc.
  induction (graph_node json) as [|nd nodes IH]; intros acc; cbn.
  - by rewrite app_nil_r.
  - rewrite IH, foldl_collect_word, filter_app, map_app.
    by rewrite <- app_assoc.
Qed.

Lemma extract_sentence_tokens_perm (json : json_object) :
  extract_sentence_tokens json ≡ₚ proper_candidates json.
Proof.
  unfold extract_sentence_tokens.
  by rewrite sort_perm, collect_tokens_candidates.
Qed.

Lemma proper_candidates_not_sentinel (json : json_object) :
  Forall (fun t => token_id t ≠ -1) (proper_candidates json).
Proof.
  unfold proper_candidates. apply Forall_forall.
  intros t (w & -> & Hw)%list_elem_of_fmap.
  by apply list_elem_of_filter in Hw as [Hid _].
Qed.

(** C1, as the code has it: the extracted tokens are the non-sentinel
    candidates, sorted by id in ascending order, tokens of one id in the
    order of the graph; no token is dropped for sharing an id with
    another, so the order is strict exactly when the non-sentinel
    candidates have pairwise different ids. *)
Theorem extracted_ascending (json : json_object) :
  ascending (extract_sentence_tokens json)
  ∧ extract_sentence_tokens json ≡ₚ proper_candidates json
  ∧ (∀ k, filter (fun t => token_id t = k) (extract_sentence_tokens json)
          = filter (fun t => token_id t = k) (proper_candidates json))
  ∧ (NoDup (map token_id (proper_candidates json)) ↔
     strictly_ascending (extract_sentence_tokens json)).
Proof.
  split_and!.
  - apply sort_sorted.
  - apply extract_sentence_tokens_perm.
  - intros k. unfold extract_sentence_tokens.
    by rewrite sort_stable, collect_tokens_candidates.
  - split.
    + intros Hnd. apply sorted_nodup_strict; [apply sort_sorted|].
      by rewrite (extract_sentence_tokens_perm json).
    + intros Hstrict. rewrite <- (extract_sentence_tokens_perm json).
      unfold strictly_ascending in Hstrict.
      induction Hstrict as [|t l Hl IH Ht]; cbn; [constructor|].
      apply NoDup_cons. split; [|done].
      intros (b & Heq & Hb)%list_elem_of_fmap.
      rewrite Forall_forall in Ht. specialize (Ht b Hb). lia.
Qed.

Lemma extracted_ascending_witness :
  strictly_ascending (extract_sentence_tokens scenario1).
Proof.
  apply (proj1 (proj2 (proj2 (proj2 (extracted_ascending scenario1))))).
  apply (bool_decide_unpack _). vm_compute. exact I.
Defined.

(** C1, as the specification has it, fails: a node with two words of id 0
    yields both of them. *)
Lemma extracted_not_strictly_ascending :
  extract_sentence_tokens duplicate_ids
  = [(0, "New", "NNP", "New"); (0, "York", "NNP", "York")]
  ∧ ¬ strictly_ascending (extract_sentence_tokens duplicate_ids)
  ∧ ¬ NoDup (map token_id (extract_sentence_tokens duplicate_ids)).
Proof.
  split; [reflexivity|]. split.
  - intros Hs. inversion Hs as [|? ? _ Hhd]; subst.
    apply Forall_cons in Hhd as [Hlt _]. by cbn in Hlt.
  - intros Hnd. cbn in Hnd. apply NoDup_cons in Hnd as [Hnotin _].
    apply Hnotin. by left.
Qed.

(** C7: no extracted token has the id -1, and a candidate with that id,
    in whichever node it stands, leaves no token behind. *)
Theorem sentinel_never_extracted (json : json_object) :
  Forall (fun t => token_id t ≠ -1) (extract_sentence_tokens json)
  ∧ Forall (fun w => word_id w = -1 → word_tuple w ∉ extract_sentence_tokens json)
           (candidates json).
Proof.
  assert (Hall : Forall (fun t => token_id t ≠ -1) (extract_sentence_tokens json)).
  { rewrite (extract_sentence_tokens_perm json).
    apply proper_candidates_not_sentinel. }
  split; [done|].
  apply Forall_forall. intros w _ Hid Hin.
  rewrite Forall_forall in Hall. by apply (Hall _ Hin).
Qed.

Example sentinel_dropped :
  candidates duplicate_ids
  = [Word (-1) "ROOT" "ROOT" "ROOT"; Word 0 "New" "NNP" "New";
     Word 0 "York" "NNP" "York"]
  ∧ map token_id (extract_sentence_tokens duplicate_ids) = [0; 0].
Proof. split; reflexivity. Qed.

Example extract_sorts :
  map token_form
    (extract_sentence_tokens
       (JsonObject "" [Node [Word 2 "c" "" ""; Word (-1) "r" "" ""];
                       Node [Word 0 "a" "" ""]; Node [Word 1 "b" "" ""]] "."))
  = ["a"; "b"; "c"].
Proof. reflexivity. Qed.

(** ** The batch loader *)

Lemma convert_all_cons (r : json_object) (rs : list json_object)
    (exs : list (list Token)) :
  convert_all (r :: rs) = Returns exs →
  ∃ e es, compression_json_to_example r = Returns e
    ∧ convert_all rs = Returns es ∧ exs = e :: es.
Proof.
  cbn. destruct (compression_json_to_example r) as [e| |]; cbn; [|done..].
  destruct (convert_all rs) as [es| |]; cbn; [|done..].
  intros [= <-]. by exists e, es.
Qed.

Lemma convert_all_length (records : list json_object) (exs : list (list Token)) :
  convert_all records = Returns exs → length exs = length records.
Proof.
  revert exs. induction records as [|r rs IH]; intros exs.
  - by intros [= <-].
  - intros (e & es & _ & Hes & ->)%convert_all_cons. cbn. by rewrite (IH es).
Qed.

(** While the limit is not hit, the loop goes through all the records. *)
Lemma load_loop_no_hit (limit : option Z) (acc exs : list (list Token))
    (records : list json_object) :
  (∀ m, (length acc < m ≤ length acc + length records)%nat →
        limit_hit limit m = false) →
  convert_all records = Returns exs →
  load_loop limit acc records = Returns (acc ++ exs, []).
Proof.
  revert acc exs. induction records as [|r rs IH]; intros acc exs Hno.
  - intros [= <-]. cbn. by rewrite app_nil_r.
  - intros (e & es & He & Hes & ->)%convert_all_cons.
    cbn [load_loop]. rewrite He. cbn.
    fold (limit_hit limit (length (acc ++ [e]))).
    rewrite Hno by (rewrite length_app; cbn; lia).
    rewrite (IH (acc ++ [e]) es); [by rewrite <- app_assoc| |done].
    intros m Hm. apply Hno. rewrite length_app in Hm. cbn in *. lia.
Qed.

(** When the limit is hit at the [k]-th record from here, the loop stops
    there and leaves the records after it. *)
Lemma load_loop_hit (limit : option Z) (k : nat) (acc exs : list (list Token))
    (records : list json_object) :
  (1 ≤ k ≤ length records)%nat →
  (∀ m, (length acc < m < length acc + k)%nat → limit_hit limit m = false) →
  limit_hit limit (length acc + k) = true →
  convert_all (take k records) = Returns exs →
  load_loop limit acc records = Returns (acc ++ exs, drop k records).
Proof.
  revert k acc exs.
  induction records as [|r rs IH]; intros k acc exs Hk Hno Hhit; cbn in Hk.
  - lia.
  - destruct k as [|k]; [lia|]. cbn [take drop].
    intros (e & es & He & Hes & ->)%convert_all_cons.
    cbn [load_loop]. rewrite He. cbn.
    fold (limit_hit limit (length (acc ++ [e]))).
    rewrite length_app. cbn [length].
    destruct k as [|k].
    + rewrite Hhit. rewrite take_0 in Hes. injection Hes as <-. done.
    + rewrite Hno by lia.
      rewrite (IH (S k) (acc ++ [e]) es); [by rewrite <- app_assoc|lia| | |done].
      * intros m Hm. apply Hno. rewrite length_app in Hm. cbn in Hm. lia.
      * rewrite <- Hhit. f_equal. rewrite length_app. cbn. lia.
Qed.

Lemma limit_hit_spec (limit : option Z) (m : nat) :
  limit_hit limit m = true ↔ (0 < m)%nat ∧ limit = Some (Z.of_nat m).
Proof.
  unfold limit_hit, Py.truthy. destruct limit as [n|]; cbn.
  - rewrite andb_true_iff, negb_true_iff, Z.eqb_neq, bool_decide_eq_true.
    split.
    + intros [Hn [= <-]]. split; [lia|done].
    + intros [Hm [= ->]]. split; [lia|done].
  - split; [done|]. by intros [_ ?].
Qed.

Lemma load_loop_no_hit_bind (limit : option Z) (acc : list (list Token))
    (records : list json_object) :
  (∀ m, (length acc < m ≤ length acc + length records)%nat →
        limit_hit limit m = false) →
  load_loop limit acc records
  = exs ← convert_all records; mret (acc ++ exs, []).
Proof.
  revert acc. induction records as [|r rs IH]; intros acc Hno.
  - cbn. by rewrite app_nil_r.
  - cbn [load_loop convert_all].
    destruct (compression_json_to_example r) as [e| |]; cbn; [|done..].
    fold (limit_hit limit (length (acc ++ [e]))).
    rewrite Hno by (rewrite length_app; cbn; lia).
    rewrite IH.
    + destruct (convert_all rs) as [es| |]; cbn; [|done..].
      by rewrite <- app_assoc.
    + intros m Hm. apply Hno. rewrite length_app in Hm. cbn in *. lia.
Qed.

Lemma load_loop_hit_bind (limit : option Z) (k : nat) (acc : list (list Token))
    (records : list json_object) :
  (1 ≤ k ≤ length records)%nat →
  (∀ m, (length acc < m < length acc + k)%nat → limit_hit limit m = false) →
  limit_hit limit (length acc + k) = true →
  load_loop limit acc records
  = exs ← convert_all (take k records); mret (acc ++ exs, drop k records).
Proof.
  revert k acc.
  induction records as [|r rs IH]; intros k acc Hk Hno Hhit; cbn in Hk; [lia|].
  destruct k as [|k]; [lia|]. cbn [take drop load_loop convert_all].
  destruct (compression_json_to_example r) as [e| |]; cbn; [|done..].
  fold (limit_hit limit (length (acc ++ [e]))).
  rewrite length_app. cbn [length].
  destruct k as [|k].
  - rewrite Hhit, take_0. done.
  - rewrite Hno by lia. rewrite (IH (S k) (acc ++ [e])).
    + destruct (convert_all (take (S k) rs)) as [es| |]; cbn; [|done..].
      by rewrite <- app_assoc.
    + lia.
    + intros m Hm. apply Hno. rewrite length_app in Hm. cbn in Hm. lia.
    + rewrite <- Hhit. f_equal. rewrite length_app. cbn. lia.
Qed.

(** The loop converts the records it consumes, and nothing else. *)
Lemma load_loop_convert (limit : option Z) (records : list json_object) :
  load_loop limit [] records
  = exs ← convert_all (take (consumed limit records) records);
    mret (exs, drop (consumed limit records) records).
Proof.
  assert ((∃ m, (0 < m ≤ length records)%nat ∧ limit = Some (Z.of_nat m))
          ∨ ¬ (∃ m, (0 < m ≤ length records)%nat ∧ limit = Some (Z.of_nat m)))
    as [(m & Hm & ->)|Hnone].
  { destruct limit as [n|]; [|right; by intros (m & _ & ?)].
    destruct (decide (0 < n ∧ (Z.to_nat n ≤ length records)%nat)) as [Hn|Hn].
    - left. exists (Z.to_nat n). split; [lia|]. f_equal. lia.
    - right. intros (m & Hm & [= ->]). lia. }
  - assert (consumed (Some (Z.of_nat m)) records = m) as ->.
    { unfold consumed. rewrite (proj2 (Z.ltb_lt _ _)) by lia. lia. }
    rewrite (load_loop_hit_bind _ m []); cbn; [done|lia| |].
    + intros k Hk. destruct (limit_hit _ k) eqn:Hhit; [|done].
      apply limit_hit_spec in Hhit as [_ [= ?]]. lia.
    + apply limit_hit_spec. split; [lia|done].
  - assert (consumed limit records = length records) as ->.
    { unfold consumed. destruct limit as [n|]; [|done].
      destruct (Z.ltb_spec 0 n); [|done].
      destruct (decide (Z.to_nat n ≤ length records)%nat); [|lia].
      destruct Hnone. exists (Z.to_nat n). split; [lia|]. f_equal. lia. }
    rewrite take_ge, drop_all by done.
    rewrite (load_loop_no_hit_bind _ []); [done|].
    intros m Hm. cbn in Hm. destruct (limit_hit _ m) eqn:Hhit; [|done].
    apply limit_hit_spec in Hhit as [_ ->]. destruct Hnone. exists m.
    split; [lia|done].
Qed.

Lemma load_compression_data_convert (records : list json_object)
    (limit : option Z) :
  load_compression_data records limit
  = convert_all (take (consumed limit records) records).
Proof.
  unfold load_compression_data. rewrite load_loop_convert.
  by destruct (convert_all _).
Qed.

Lemma compression_json_to_example_cases (json : json_object) :
  (∃ example, compression_json_to_example json = Returns example)
  ∨ compression_json_to_example json = Raises AssertionError.
Proof.
  rewrite compression_json_to_example_bind.
  destruct (get_labels_cases
              (map (fun x => Py.lower (token_form x))
                   (extract_sentence_tokens json))
              (get_compression_tokens (extract_sentence_tokens json)
                                      (compression_text json)))
    as [[_ Hrun]|[_ Hrun]]; rewrite Hrun; cbn; eauto.
Qed.

(** A record that raises makes the conversion of a sequence that holds
    it raise. *)
Lemma convert_all_raises (records : list json_object) (i : nat)
    (r : json_object) (e : exn) :
  records !! i = Some r →
  compression_json_to_example r = Raises e →
  convert_all records = Raises AssertionError ∧ e = AssertionError.
Proof.
  revert i. induction records as [|r0 rs IH]; intros i Hi He; [done|].
  destruct i as [|i]; cbn in Hi.
  - injection Hi as ->. cbn [convert_all].
    destruct (compression_json_to_example_cases r) as [[ex Hex]|Hr];
      [congruence|].
    rewrite Hr in *. by injection He as <-.
  - destruct (IH i Hi He) as [Hrs ->]. split; [|done]. cbn [convert_all].
    destruct (compression_json_to_example_cases r0) as [[ex ->]| ->]; cbn;
      [|done].
    by rewrite Hrs.
Qed.

(** C10, as the code has it: when the records the loader asks for, all of
    them for a limit of [None], 0 or below and the first [min n
    (number of records)] for a limit [n > 0], convert without raising,
    the loader returns their examples, one per record and in order, and
    the generator keeps the records after them, whatever they are.  When
    one of the records the loader asks for raises, the call raises, the
    [AssertionError] of that or of an earlier record, and returns
    nothing. *)
Theorem load_limit (records : list json_object) (limit : option Z) :
  (∀ examples : list (list Token),
     convert_all (take (consumed limit records) records) = Returns examples →
     load_compression_data records limit = Returns examples
     ∧ load_loop limit [] records
       = Returns (examples, drop (consumed limit records) records)
     ∧ length examples = consumed limit records
     ∧ (limit = None ∨ limit = Some 0 → length examples = length records)
     ∧ (∀ n, limit = Some n → 0 < n →
          length examples = Nat.min (Z.to_nat n) (length records)))
  ∧ (∀ (i : nat) (r : json_object) (e : exn),
       (i < consumed limit records)%nat →
       records !! i = Some r →
       compression_json_to_example r = Raises e →
       e = AssertionError
       ∧ load_compression_data records limit = Raises AssertionError
       ∧ load_loop limit [] records = Raises AssertionError)
  ∧ (∀ e, convert_all (take (consumed limit records) records) = Raises e →
          load_compression_data records limit = Raises e).
Proof.
  split_and!.
  { intros examples Hconv.
    assert (Hk : (consumed limit records ≤ length records)%nat).
    { unfold consumed. destruct limit as [n|]; [|done].
      destruct (0 <? n); lia. }
    assert (Hlen : length examples = consumed limit records).
    { apply convert_all_length in Hconv. rewrite Hconv, length_take. lia. }
    assert (Hloop : load_loop limit [] records
                    = Returns (examples, drop (consumed limit records) records)).
    { assert ((∃ m, (0 < m ≤ length records)%nat ∧ limit = Some (Z.of_nat m))
              ∨ ¬ (∃ m, (0 < m ≤ length records)%nat ∧ limit = Some (Z.of_nat m)))
        as [(m & Hm & ->)|Hnone].
      { destruct limit as [n|]; [|right; by intros (m & _ & ?)].
        destruct (decide (0 < n ∧ (Z.to_nat n ≤ length records)%nat)) as [Hn|Hn].
        - left. exists (Z.to_nat n). split; [lia|]. f_equal. lia.
        - right. intros (m & Hm & [= ->]). lia. }
      - assert (consumed (Some (Z.of_nat m)) records = m) as Hc.
        { unfold consumed. rewrite (proj2 (Z.ltb_lt _ _)) by lia. lia. }
        rewrite Hc in *.
        apply (load_loop_hit _ m []); cbn;
          [lia| |apply limit_hit_spec; split; [lia|done]|done].
        intros k Hk'. destruct (limit_hit _ k) eqn:Hhit; [|done].
        apply limit_hit_spec in Hhit as [_ [= ?]]. lia.
      - assert (consumed limit records = length records) as Hc.
        { unfold consumed. destruct limit as [n|]; [|done].
          destruct (Z.ltb_spec 0 n); [|done].
          destruct (decide (Z.to_nat n ≤ length records)%nat); [|lia].
          destruct Hnone. exists (Z.to_nat n). split; [lia|]. f_equal. lia. }
        rewrite Hc in *. rewrite take_ge in Hconv by done.
        rewrite drop_all.
        apply (load_loop_no_hit _ []); [|done].
        intros m Hm. cbn in Hm. destruct (limit_hit _ m) eqn:Hhit; [|done].
        apply limit_hit_spec in Hhit as [_ ->]. destruct Hnone. exists m.
        split; [lia|done]. }
    split_and!; [|done|done| |].
    - unfold load_compression_data. by rewrite Hloop.
    - rewrite Hlen. by intros [->| ->].
    - intros n -> Hn. rewrite Hlen. unfold consumed.
      by rewrite (proj2 (Z.ltb_lt _ _)) by done. }
  - intros i r e Hi Hr He.
    destruct (convert_all_raises (take (consumed limit records) records) i r e)
      as [Hraise ->]; [by rewrite lookup_take_lt|done|].
    split; [done|].
    rewrite load_compression_data_convert, load_loop_convert, Hraise. done.
  - intros e He. by rewrite load_compression_data_convert.
Qed.

Lemma load_limit_witness :
  load_compression_data [scenario1; scenario1; scenario2] (Some 2)
  = Returns [[mkToken "The" "DT" "the" 0; mkToken "co." "NN" "co." 0;
              mkToken "filed" "VBD" "file" 0];
             [mkToken "The" "DT" "the" 0; mkToken "co." "NN" "co." 0;
              mkToken "filed" "VBD" "file" 0]]
  ∧ load_loop (Some 2) [] [scenario1; scenario1; scenario2]
    = Returns ([[mkToken "The" "DT" "the" 0; mkToken "co." "NN" "co." 0;
                 mkToken "filed" "VBD" "file" 0];
                [mkToken "The" "DT" "the" 0; mkToken "co." "NN" "co." 0;
                 mkToken "filed" "VBD" "file" 0]],
               [scenario2])
  ∧ load_compression_data [scenario1; scenario2; scenario1] (Some 2)
    = Raises AssertionError.
Proof.
  split_and!.
  - apply (proj1 (load_limit [scenario1; scenario1; scenario2] (Some 2))).
    vm_compute. reflexivity.
  - apply (proj1 (load_limit [scenario1; scenario1; scenario2] (Some 2))).
    vm_compute. reflexivity.
  - apply (proj1 (proj2 (load_limit [scenario1; scenario2; scenario1] (Some 2)))
             1%nat scenario2 AssertionError).
    + vm_compute. lia.
    + reflexivity.
    + vm_compute. reflexivity.
Defined.

(** C10, as the specification has it, fails: a record whose compression
    has more tokens than its sentence makes the loader raise, whatever
    the limit, and nothing is returned. *)
Lemma load_raises_on_unalignable_record :
  get_compression_tokens (extract_sentence_tokens scenario2)
                         (compression_text scenario2)
  = ["he"; "is"; "n't"; "here"]
  ∧ load_compression_data [scenario2] None = Raises AssertionError
  ∧ load_compression_data [scenario2] (Some 0) = Raises AssertionError
  ∧ load_compression_data [scenario2; scenario1] (Some 1) = Raises AssertionError
  ∧ ¬ (∃ examples, load_compression_data [scenario2] None = Returns examples
                   ∧ length examples = length [scenario2]).
Proof.
  split_and!; [vm_compute; reflexivity..|].
  intros (examples & Hrun & _). vm_compute in Hrun. discriminate.
Qed.

(** ** The compression normalizer *)

(** *** Strings *)

Lemma string_app_nil_l (b : string) : "" +:+ b = b.
Proof. reflexivity. Qed.

Lemma string_app_cons (x : ascii) (a b : string) :
  String x a +:+ b = String x (a +:+ b).
Proof. reflexivity. Qed.

Lemma string_app_assoc (a b c : string) : (a +:+ b) +:+ c = a +:+ (b +:+ c).
Proof.
  induction a as [|x a IH]; [done|]. by rewrite !string_app_cons, IH.
Qed.

Lemma string_app_empty_r (a : string) : a +:+ "" = a.
Proof.
  induction a as [|x a IH]; [done|]. by rewrite string_app_cons, IH.
Qed.

Lemma string_length_app (a b : string) :
  String.length (a +:+ b) = (String.length a + String.length b)%nat.
Proof.
  induction a as [|x a IH]; [done|]. rewrite string_app_cons. cbn.
  by rewrite IH.
Qed.

Lemma substring_all (a : string) : String.substring 0 (String.length a) a = a.
Proof. induction a as [|x a IH]; cbn; [done|]. by rewrite IH. Qed.

Lemma substring_app_l (a b : string) :
  String.substring 0 (String.length a) (a +:+ b) = a.
Proof.
  induction a as [|x a IH].
  - rewrite string_app_nil_l. by destruct b.
  - rewrite string_app_cons. cbn. by rewrite IH.
Qed.

Lemma endswith_spec (s p : string) :
  Py.endswith s p = true ↔ ∃ pre, s = pre +:+ p.
Proof.
  induction s as [|x s IH]; cbn [Py.endswith].
  - destruct (String.eqb_spec "" p) as [<-|Hne].
    + split; [by exists ""|done].
    + split; [done|]. intros [[|y pre] Hpre]; [done|discriminate].
  - destruct (String.eqb_spec (String x s) p) as [<-|Hne].
    + split; [by exists ""|done].
    + rewrite IH. split.
      * intros [pre ->]. by exists (String x pre).
      * intros [[|y pre] Hpre]; [done|].
        rewrite string_app_cons in Hpre.
        injection Hpre as -> ->. by exists pre.
Qed.

(** [s[:-1]] drops the last character. *)
Lemma slice_drop_last (a : string) (c : ascii) :
  Py.slice (a +:+ String c "") None (Some (-1)) = a.
Proof.
  unfold Py.slice, Py.clamp. cbn [from_option].
  rewrite string_length_app. cbn [String.length].
  replace (Z.to_nat 0) with 0%nat by done.
  destruct (Z.ltb_spec (-1) 0); [|lia].
  replace (Z.to_nat _) with (String.length a) by lia.
  apply substring_app_l.
Qed.

(** [s[1:]] drops the first character. *)
Lemma slice_drop_first (c : ascii) (a : string) :
  Py.slice (String c a) (Some 1) None = a.
Proof.
  unfold Py.slice, Py.clamp. cbn [from_option String.length].
  destruct (Z.ltb_spec 1 0); [lia|].
  replace (Z.to_nat _) with 1%nat by lia.
  replace (Z.to_nat _) with (String.length a) by lia.
  cbn. apply substring_all.
Qed.

Lemma startswith_paren (s : string) :
  Py.startswith s "(" = true ↔ ∃ rest, s = String "(" rest.
Proof.
  destruct s as [|c s]; cbn [Py.startswith].
  - split; [done|]. by intros [? ?].
  - destruct (Ascii.eqb_spec c "(") as [->|Hne]; cbn [andb].
    + split; [by exists s|]. intros _. by destruct s.
    + split; [done|]. intros [rest [= ? ?]]. done.
Qed.

(** *** The rules, one token at a time *)

(** The chain appends to what was collected before. *)
Lemma append_token_app (acc : list string) (token : string) :
  append_token acc token = acc ++ append_token [] token.
Proof.
  unfold append_token.
  repeat case_match; rewrite ?app_nil_r, <- ?app_assoc; done.
Qed.

Lemma normalize_token_app (token_forms_set : gset string) (acc : list string)
    (token : string) :
  normalize_token token_forms_set acc token
  = acc ++ normalize_token token_forms_set [] token.
Proof. apply append_token_app. Qed.

(** The normalizer concatenates what each raw token gives. *)
Lemma foldl_normalize_token (token_forms_set : gset string) (acc : list string)
    (tokens : list string) :
  foldl (normalize_token token_forms_set) acc tokens
  = acc ++ concat (map (normalize_token token_forms_set []) tokens).
Proof.
  revert acc. induction tokens as [|t tokens IH]; intros acc; cbn.
  - by rewrite app_nil_r.
  - rewrite IH, (normalize_token_app _ acc). by rewrite <- app_assoc.
Qed.

(** The table holds the thirteen entries, the key written twice
    included once. *)
Lemma special_abbreviations_lookup (token punctuated : string) :
  special_abbreviations !! token = Some punctuated ↔
  (token, punctuated) ∈ abbreviation_entries.
Proof.
  unfold special_abbreviations, abbreviation_entries. cbn [foldl fst snd].
  rewrite !lookup_insert_Some, lookup_empty, !elem_of_cons, elem_of_nil.
  split.
  - intros H. repeat (destruct H as [[<- <-]|[_ H]]; [tauto|]). done.
  - intros H.
    repeat (destruct H as [[= -> ->]|H];
            [repeat (first [left; split; reflexivity
                           | right; split; [discriminate|]])|]).
    done.
Qed.

(** *** Abbreviations *)



Example abbreviation_kept_short :
  get_compression_tokens
    [(0, "The", "DT", "the"); (1, "company", "NN", "company");
     (2, "filed", "VBD", "file")]
    "The co filed."
  = ["the"; "co"; "filed"].
Proof. vm_compute. reflexivity. Qed.

(** *** Parentheses *)

Lemma string_app_last_inj (a b : string) (c d : ascii) :
  a +:+ String c "" = b +:+ String d "" → a = b ∧ c = d.
Proof.
  revert b. induction a as [|x a IH]; intros [|y b];
    rewrite ?string_app_nil_l, ?string_app_cons.
  - by intros [= ->].
  - intros [= -> Hb]. by destruct b.
  - intros [= -> Ha]. by destruct a.
  - intros [= -> Hab]. by destruct (IH _ Hab) as [-> ->].
Qed.

(** A suffix of a string ends with the character the string ends with. *)
Lemma endswith_last (a p : string) (c d : ascii) :
  Py.endswith (a +:+ String c "") (p +:+ String d "") = true → c = d.
Proof.
  intros [pre Hpre]%endswith_spec.
  rewrite <- string_app_assoc in Hpre.
  by apply string_app_last_inj in Hpre as [_ ?].
Qed.

Lemma endswith_last_ne (a p : string) (c d : ascii) :
  c ≠ d → Py.endswith (a +:+ String c "") (p +:+ String d "") = false.
Proof.
  intros Hne. destruct (Py.endswith _ _) eqn:Hends; [|done].
  by apply endswith_last in Hends.
Qed.

(** No key of the table starts with an opening or ends with a closing
    parenthesis. *)
Lemma abbreviation_no_paren (token : string) :
  Py.startswith token "(" = true ∨ Py.endswith token ")" = true →
  special_abbreviations !! token = None.
Proof.
  intros Hparen.
  destruct (special_abbreviations !! token) as [punctuated|] eqn:Hkey; [|done].
  apply special_abbreviations_lookup in Hkey.
  assert (Hall : Forall (fun kv => Py.startswith kv.1 "(" = false
                                   ∧ Py.endswith kv.1 ")" = false)
                        abbreviation_entries) by (repeat constructor).
  rewrite Forall_forall in Hall. destruct (Hall _ Hkey) as [Hs He].
  cbn in Hs, He. destruct Hparen; congruence.
Qed.

Lemma handle_abbreviation_paren (token_forms_set : gset string) (token : string) :
  Py.startswith token "(" = true ∨ Py.endswith token ")" = true →
  handle_abbreviation token_forms_set token = token.
Proof.
  intros Hparen. unfold handle_abbreviation.
  by rewrite abbreviation_no_paren.
Qed.

(** The rule for a token that starts with an opening parenthesis, once
    the three suffix rules before it have let the token pass. *)
Lemma append_token_open_paren (acc : list string) (rest : string) :
  Py.endswith (String "(" rest) "'s" = false →
  Py.endswith (String "(" rest) "n't" = false →
  Py.endswith (String "(" rest) "%" = false →
  append_token acc (String "(" rest) = acc ++ [rest].
Proof.
  intros H1 H2 H3. unfold append_token. rewrite H1, H2, H3.
  repeat match goal with
         | |- context [String.eqb (String "(" rest) ?k] =>
             destruct (String.eqb_spec (String "(" rest) k) as [?|_];
             [discriminate|]
         end.
  cbn [Py.startswith Ascii.eqb Bool.eqb andb].
  replace (Py.startswith rest "") with true by (by destruct rest).
  by rewrite slice_drop_first.
Qed.

(** The rule for a token that ends with a closing parenthesis and does
    not start with an opening one. *)
Lemma append_token_close_paren (acc : list string) (body : string) :
  Py.startswith (body +:+ ")") "(" = false →
  append_token acc (body +:+ ")") = acc ++ [body].
Proof.
  intros Hopen.
  assert (Hclose : Py.endswith (body +:+ ")") ")" = true).
  { apply endswith_spec. by exists body. }
  unfold append_token.
  assert (H1 : Py.endswith (body +:+ ")") "'s" = false)
    by (by apply (endswith_last_ne body "'" ")" "s")).
  assert (H2 : Py.endswith (body +:+ ")") "n't" = false)
    by (by apply (endswith_last_ne body "n'" ")" "t")).
  assert (H3 : Py.endswith (body +:+ ")") "%" = false)
    by (by apply (endswith_last_ne body "" ")" "%")).
  assert (H4 : Py.endswith (body +:+ ")") "''" = false)
    by (by apply (endswith_last_ne body "'" ")" "'")).
  rewrite H1, H2, H3, H4, Hopen, Hclose, andb_false_r.
  repeat match goal with
         | |- context [String.eqb (body +:+ ")") ?k] =>
             destruct (String.eqb_spec (body +:+ ")") k) as [Heq|_];
             [rewrite Heq in Hclose; vm_compute in Hclose; discriminate|]
         end.
  by rewrite slice_drop_last.
Qed.

Lemma strip_comma_not_comma (body : string) (c : ascii) :
  c ≠ ","%char → strip_comma (body +:+ String c "") = body +:+ String c "".
Proof.
  intros Hne. unfold strip_comma.
  assert (H : Py.endswith (body +:+ String c "") "," = false)
    by (by apply (endswith_last_ne body "" c ",")).
  by rewrite H.
Qed.

(** C9, as the code has it: the rules are tried in order on the token
    left by the comma rule, so the rule for an opening parenthesis is
    reached only by a token that does not end with ['s], [n't] or [%];
    such a token is emitted without its first character and keeps a
    closing parenthesis at its end.  A token that ends with a closing
    parenthesis and does not start with an opening one is emitted
    without its last character. *)
Theorem paren_rules (token_forms_set : gset string) (acc : list string)
    (token : string) :
  (∀ rest, strip_comma token = String "(" rest →
     Py.endswith (strip_comma token) "'s" = false →
     Py.endswith (strip_comma token) "n't" = false →
     Py.endswith (strip_comma token) "%" = false →
     normalize_token token_forms_set acc token = acc ++ [rest])
  ∧ (∀ inner, token = "(" +:+ inner +:+ ")" →
     normalize_token token_forms_set acc token = acc ++ [inner +:+ ")"])
  ∧ (∀ body, token = body +:+ ")" → Py.startswith token "(" = false →
     normalize_token token_forms_set acc token = acc ++ [body]).
Proof.
  split_and!.
  - intros rest Hrest H1 H2 H3. unfold normalize_token.
    rewrite Hrest in *.
    rewrite handle_abbreviation_paren by (left; by apply startswith_paren; eauto).
    by apply append_token_open_paren.
  - intros inner ->. unfold normalize_token.
    change ("(" +:+ inner +:+ ")") with (String "(" inner +:+ ")").
    rewrite strip_comma_not_comma by done.
    rewrite string_app_cons.
    rewrite handle_abbreviation_paren
      by (left; apply startswith_paren; eauto).
    rewrite <- string_app_cons.
    apply append_token_open_paren; rewrite <- string_app_cons.
    + by apply (endswith_last_ne _ "'" ")" "s").
    + by apply (endswith_last_ne _ "n'" ")" "t").
    + by apply (endswith_last_ne _ "" ")" "%").
  - intros body -> Hopen. unfold normalize_token.
    rewrite strip_comma_not_comma by done.
    rewrite handle_abbreviation_paren
      by (right; apply endswith_spec; by exists body).
    by apply append_token_close_paren.
Qed.

Lemma paren_rules_witness :
  normalize_token ∅ ["see"] "(fig." = ["see"] ++ ["fig."]
  ∧ normalize_token ∅ ["see"] "(1)" = ["see"] ++ ["1" +:+ ")"]
  ∧ normalize_token ∅ ["see"] "1)" = ["see"] ++ ["1"].
Proof.
  split_and!.
  - apply (proj1 (paren_rules ∅ ["see"] "(fig.") "fig."); reflexivity.
  - by apply (proj1 (proj2 (paren_rules ∅ ["see"] "(1)")) "1").
  - apply (proj2 (proj2 (paren_rules ∅ ["see"] "1)")) "1"); reflexivity.
Defined.

(** C9, as the specification has it, fails: a token that starts with an
    opening parenthesis and ends with ['s], [n't] or [%] is split there
    and keeps its parenthesis, and one that ends with a comma loses the
    comma as well. *)
Lemma paren_rule_preempted :
  Py.startswith "(it's" "(" = true
  ∧ normalize_token ∅ [] "(it's" = ["(it"; "'s"]
  ∧ normalize_token ∅ [] "(it's" ≠ [Py.slice "(it's" (Some 1) None]
  ∧ normalize_token ∅ [] "(isn't" = ["(is"; "n't"]
  ∧ normalize_token ∅ [] "(5%" = ["(5"; "%"]
  ∧ normalize_token ∅ [] "(then," = ["then"]
  ∧ get_compression_tokens [] "He said (it's fine)."
    = ["he"; "said"; "(it"; "'s"; "fine"].
Proof. split_and!; try (vm_compute; reflexivity). vm_compute. discriminate. Qed.

(** *** Tokens that are already normalized *)

Lemma lower_app (a b : string) : Py.lower (a +:+ b) = Py.lower a +:+ Py.lower b.
Proof.
  induction a as [|x a IH]; [done|].
  rewrite string_app_cons. cbn [Py.lower]. by rewrite IH, string_app_cons.
Qed.

Lemma lower_join (tokens : list string) :
  Forall (fun t => Py.lower t = t) tokens →
  Py.lower (Py.join " " tokens) = Py.join " " tokens.
Proof.
  induction 1 as [|t tokens Ht _ IH]; [done|].
  destruct tokens as [|t' tokens]; [done|].
  cbn [Py.join] in *. by rewrite !lower_app, Ht, IH.
Qed.

Lemma split_fields_app (sep : ascii) (w s : string) :
  Py.contains w sep = false →
  Py.split_fields sep (w +:+ s)
  = ((w +:+ (Py.split_fields sep s).1), (Py.split_fields sep s).2).
Proof.
  induction w as [|a w IH]; intros Hw.
  - rewrite !string_app_nil_l. by destruct (Py.split_fields sep s).
  - cbn [Py.contains] in Hw. apply orb_false_iff in Hw as [Ha Hw].
    rewrite string_app_cons. cbn [Py.split_fields].
    rewrite (IH Hw), Ha. by rewrite string_app_cons.
Qed.

Lemma split_sep (sep : ascii) (s : string) :
  Py.split (String sep s) sep = "" :: Py.split s sep.
Proof.
  unfold Py.split. cbn [Py.split_fields].
  destruct (Py.split_fields sep s) as [w ws]. by rewrite Ascii.eqb_refl.
Qed.

Lemma split_app (sep : ascii) (w s : string) :
  Py.contains w sep = false →
  Py.split (w +:+ String sep s) sep = w :: Py.split s sep.
Proof.
  intros Hw. unfold Py.split at 1. rewrite (split_fields_app _ _ _ Hw).
  pose proof (split_sep sep s) as Hs. unfold Py.split at 1 in Hs.
  destruct (Py.split_fields sep (String sep s)) as [w' ws] eqn:Hf.
  injection Hs as -> ->. cbn [fst snd]. by rewrite string_app_empty_r.
Qed.

Lemma split_no_sep (sep : ascii) (w : string) :
  Py.contains w sep = false → Py.split w sep = [w].
Proof.
  intros Hw. unfold Py.split.
  rewrite <- (string_app_empty_r w) at 1.
  rewrite (split_fields_app _ _ _ Hw). cbn. by rewrite string_app_empty_r.
Qed.

(** Splitting the joined tokens gives the tokens back, but for the empty
    sequence, whose text splits into one empty field. *)
Lemma split_join (tokens : list string) :
  Forall (fun t => Py.contains t " " = false) tokens →
  Py.split (Py.join " " tokens) " "
  = match tokens with [] => [""] | _ => tokens end.
Proof.
  induction 1 as [|t tokens Ht Hts IH]; [done|].
  destruct tokens as [|t' tokens].
  - cbn [Py.join]. by apply split_no_sep.
  - change (Py.join " " (t :: t' :: tokens))
      with (t +:+ String " " (Py.join " " (t' :: tokens))).
    by rewrite split_app, IH.
Qed.

Lemma settled_lower (token_forms_set : gset string) (token : string) :
  settled token_forms_set token = true →
  Py.lower token = token ∧ Py.contains token " " = false.
Proof.
  unfold settled. rewrite !andb_true_iff, !negb_true_iff.
  intros [[[[Hlow Hsp] _] _] _]. by apply String.eqb_eq in Hlow.
Qed.

(** A settled token goes through the loop body unchanged. *)
Lemma normalize_token_settled (token_forms_set : gset string)
    (acc : list string) (token : string) :
  settled token_forms_set token = true →
  normalize_token token_forms_set acc token = acc ++ [token].
Proof.
  unfold settled. rewrite !andb_true_iff, !negb_true_iff.
  intros [[[[_ _] Hcomma] Habbr] Hrules].
  unfold normalize_token, strip_comma. rewrite Hcomma.
  assert (handle_abbreviation token_forms_set token = token) as ->.
  { unfold handle_abbreviation.
    destruct (special_abbreviations !! token) as [punctuated|]; [|done].
    apply negb_true_iff in Habbr. by rewrite Habbr. }
  unfold append_token.
  destruct (String.eqb token "'s") eqn:Hs; [done|].
  cbn [orb] in Hrules. apply negb_true_iff in Hrules.
  repeat (apply orb_false_iff in Hrules as [Hrules ?]).
  by repeat match goal with
            | H : ?b = false |- context [if ?b then _ else _] => rewrite H
            end.
Qed.




(** *** Abbreviations and the sentence *)









Example abbreviation_needs_lowered_form :
  get_compression_tokens
    [(0, "The", "DT", "the"); (1, "Co.", "NNP", "Co.");
     (2, "filed", "VBD", "file")]
    "The co filed."
  = ["the"; "co."; "filed"].
Proof. vm_compute. reflexivity. Qed.

(** * Further properties *)

(** ** The alignment labeler *)

(** X1: with no compression token at all, every sentence token is
    labelled DELETE. *)
Theorem get_labels_empty_compression (s : list string) :
  get_labels s [] = Returns (replicate (length s) DELETE).
Proof.
  unfold get_labels. rewrite get_labels_fuel_greedy; cbn; [|lia|done].
  by rewrite greedy_labels_nil_r.
Qed.

Lemma kept_forms_nil_r (s : list string) : kept_forms s [] = [].
Proof. unfold kept_forms. by destruct s. Qed.

Lemma kept_forms_sublist (s : list string) (ls : list Z) :
  kept_forms s ls `sublist_of` s.
Proof.
  revert ls. induction s as [|x s IH]; intros ls; [done|].
  destruct ls as [|l ls].
  - rewrite kept_forms_nil_r. apply sublist_nil_l.
  - rewrite kept_forms_cons. destruct (decide (l = KEEP)).
    + by apply sublist_skip.
    + by apply sublist_cons.
Qed.

(** The greedy match finds every token of a compression that is a
    subsequence of the sentence. *)
Lemma greedy_labels_complete (s c : list string) :
  c `sublist_of` s → keep_count (greedy_labels s c) = length c.
Proof.
  revert c. induction s as [|x s IH]; intros c Hsub.
  - by apply sublist_nil_r in Hsub as ->.
  - destruct c as [|y c]; cbn [greedy_labels].
    + rewrite keep_count_cons, decide_False by done.
      change (DELETE :: greedy_labels s []) with (greedy_labels (x :: s) []) in *.
      rewrite greedy_labels_nil_r.
      by rewrite keep_count_replicate_delete.
    + destruct (String.eqb_spec x y) as [->|Hne].
      * rewrite keep_count_cons, decide_True by done. cbn. f_equal.
        apply IH. apply sublist_cons_r in Hsub as [Hsub|(c' & [= <-] & Hsub)].
        -- etrans; [|exact Hsub]. by apply sublist_cons.
        -- done.
      * rewrite keep_count_cons, decide_False by done.
        apply IH. apply sublist_cons_r in Hsub as [Hsub|(c' & [= ? ?] & Hsub)].
        -- done.
        -- congruence.
Qed.

(** X2: the compression tokens are a subsequence of the sentence tokens
    if and only if [get_labels] returns labels whose KEEP positions spell
    out the whole compression. *)
Theorem get_labels_subsequence (s c : list string) :
  c `sublist_of` s ↔
  ∃ ls, get_labels s c = Returns ls ∧ kept_forms s ls = c.
Proof.
  split.
  - intros Hsub. exists (greedy_labels s c). split.
    + apply get_labels_fuel_greedy; [by apply sublist_length|done].
    + rewrite kept_forms_greedy, greedy_labels_complete by done.
      by rewrite take_ge.
  - intros (ls & _ & <-). apply kept_forms_sublist.
Qed.

Lemma greedy_labels_keep_bound (s c : list string) :
  (keep_count (greedy_labels s c) ≤ length c)%nat.
Proof.
  revert c. induction s as [|x s IH]; intros c; [cbn; lia|].
  destruct c as [|y c]; cbn [greedy_labels].
  - rewrite keep_count_cons, decide_False by done. apply IH.
  - destruct (String.eqb x y).
    + rewrite keep_count_cons, decide_True by done. specialize (IH c).
      cbn. lia.
    + rewrite keep_count_cons, decide_False by done. apply IH.
Qed.

Lemma greedy_labels_keep_elem (s c : list string) (i : nat) :
  greedy_labels s c !! i = Some KEEP → ∃ t, s !! i = Some t ∧ t ∈ c.
Proof.
  revert c i. induction s as [|x s IH]; intros c i; [done|].
  destruct c as [|y c]; cbn [greedy_labels].
  - destruct i as [|i]; [done|]. cbn. intros Hi.
    destruct (IH [] i Hi) as (t & _ & Ht). by apply elem_of_nil in Ht.
  - destruct (String.eqb_spec x y) as [->|Hne]; destruct i as [|i]; cbn.
    + intros _. exists y. split; [done|]. by left.
    + intros Hi. destruct (IH c i Hi) as (t & ? & ?).
      exists t. split; [done|]. by right.
    + done.
    + intros Hi. by apply (IH (y :: c) i).
Qed.

(** X3: [get_labels] never returns more KEEP labels than there are
    compression tokens, and a KEEP only ever stands on a sentence token
    that occurs among the compression tokens. *)
Theorem keep_only_compression_tokens (s c : list string) (ls : list Z) :
  get_labels s c = Returns ls →
  (keep_count ls ≤ length c)%nat
  ∧ ∀ i, ls !! i = Some KEEP → ∃ t, s !! i = Some t ∧ t ∈ c.
Proof.
  intros Hrun.
  destruct (get_labels_cases s c) as [[_ Hg]|[_ Hg]]; rewrite Hg in Hrun;
    [|done].
  injection Hrun as <-. split.
  - apply greedy_labels_keep_bound.
  - intros i. apply greedy_labels_keep_elem.
Qed.

Lemma keep_only_compression_tokens_witness :
  (keep_count [KEEP; DELETE; KEEP] ≤ length ["the"; "filed"; "today"])%nat
  ∧ ∀ i, [KEEP; DELETE; KEEP] !! i = Some KEEP →
      ∃ t, ["the"; "co."; "filed"] !! i = Some t ∧ t ∈ ["the"; "filed"; "today"].
Proof.
  apply (keep_only_compression_tokens
           ["the"; "co."; "filed"] ["the"; "filed"; "today"]).
  reflexivity.
Defined.

Lemma greedy_labels_app (s1 s2 c : list string) :
  greedy_labels (s1 ++ s2) c
  = greedy_labels s1 c
    ++ greedy_labels s2 (drop (keep_count (greedy_labels s1 c)) c).
Proof.
  revert c. induction s1 as [|x s1 IH]; intros c; [done|].
  destruct c as [|y c]; cbn [app greedy_labels].
  - rewrite IH, keep_count_cons, decide_False by done.
    by rewrite !drop_nil.
  - destruct (String.eqb x y).
    + rewrite IH, keep_count_cons, decide_True by done. done.
    + rewrite IH, keep_count_cons, decide_False by done. done.
Qed.

(** X4: the labels of a sentence do not depend on what is appended to
    it: for a sentence that already satisfies the precondition, the
    labels of the longer sentence start with its labels, and go on with
    the greedy labels of the appended tokens against the compression
    tokens not matched so far. *)
Theorem get_labels_extend (s1 s2 c : list string) :
  (length c ≤ length s1)%nat →
  ∃ l1 l2,
    get_labels s1 c = Returns l1
    ∧ get_labels (s1 ++ s2) c = Returns (l1 ++ l2)
    ∧ length l1 = length s1
    ∧ l2 = greedy_labels s2 (drop (keep_count l1) c).
Proof.
  intros Hpre.
  exists (greedy_labels s1 c),
         (greedy_labels s2 (drop (keep_count (greedy_labels s1 c)) c)).
  split_and!.
  - by apply get_labels_fuel_greedy.
  - unfold get_labels. rewrite get_labels_fuel_greedy, greedy_labels_app;
      [done| |done].
    rewrite length_app. lia.
  - apply greedy_labels_length.
  - done.
Qed.

Lemma get_labels_extend_witness :
  ∃ l1 l2,
    get_labels ["the"; "co."] ["the"; "filed"] = Returns l1
    ∧ get_labels (["the"; "co."] ++ ["has"; "filed"]) ["the"; "filed"]
      = Returns (l1 ++ l2)
    ∧ length l1 = length ["the"; "co."]
    ∧ l2 = greedy_labels ["has"; "filed"] (drop (keep_count l1) ["the"; "filed"]).
Proof.
  apply (get_labels_extend ["the"; "co."] ["has"; "filed"] ["the"; "filed"]).
  cbn. lia.
Defined.

(** ** The sentence token extractor and one record *)

Lemma sort_sorted_unchanged {A : Type} (key : A → Z) (l : list A) :
  StronglySorted (fun a b => key a ≤ key b) l → Py.sort key l = l.
Proof.
  induction 1 as [|x l Hl IH Hx]; [done|].
  cbn [Py.sort]. rewrite IH. destruct l as [|y l]; [done|].
  apply Forall_cons in Hx as [Hxy _]. cbn [Py.insert_by_key].
  by rewrite (proj2 (Z.leb_le _ _)) by done.
Qed.

(** X5: a token graph that lists its words in ascending order of id is
    extracted in the order of the graph, the sentinels left out. *)
Theorem extract_ascending_graph (json : json_object) :
  ascending (proper_candidates json) →
  extract_sentence_tokens json = proper_candidates json.
Proof.
  intros Hasc. unfold extract_sentence_tokens.
  rewrite collect_tokens_candidates. by apply sort_sorted_unchanged.
Qed.

Lemma extract_ascending_graph_witness :
  extract_sentence_tokens scenario1 = proper_candidates scenario1.
Proof.
  apply (extract_ascending_graph scenario1).
  unfold ascending. vm_compute. repeat constructor; discriminate.
Defined.

(** X6: when the non-sentinel candidates have pairwise different ids,
    the order of the nodes and of the words in them does not matter: two
    graphs with the same candidates give the same token sequence. *)
Theorem extract_order_independent (json1 json2 : json_object) :
  proper_candidates json1 ≡ₚ proper_candidates json2 →
  NoDup (map token_id (proper_candidates json1)) →
  extract_sentence_tokens json1 = extract_sentence_tokens json2.
Proof.
  intros Hperm Hnd.
  apply (StronglySorted_unique_strong (fun a b => token_id a < token_id b)).
  - intros; lia.
  - apply sorted_nodup_strict; [apply sort_sorted|].
    by rewrite (extract_sentence_tokens_perm json1).
  - apply sorted_nodup_strict; [apply sort_sorted|].
    by rewrite (extract_sentence_tokens_perm json2), <- Hperm.
  - by rewrite !extract_sentence_tokens_perm.
Qed.

Lemma extract_order_independent_witness :
  extract_sentence_tokens
    (JsonObject "" [Node [Word 1 "b" "" ""; Word (-1) "r" "" ""];
                    Node [Word 0 "a" "" ""]] ".")
  = extract_sentence_tokens
      (JsonObject "" [Node [Word 0 "a" "" ""; Word 1 "b" "" ""]] ".").
Proof.
  apply extract_order_independent.
  - vm_compute. apply Permutation_swap.
  - apply (bool_decide_unpack _). vm_compute. exact I.
Defined.

Lemma get_compression_tokens_short (sentence_tokens : list sentence_token)
    (compression : string) :
  (String.length compression ≤ 1)%nat →
  get_compression_tokens sentence_tokens compression = [].
Proof.
  intros Hlen. unfold get_compression_tokens.
  destruct compression as [|c [|c' compression]]; [reflexivity| |cbn in Hlen; lia].
  cbn [Py.lower].
  assert (Py.slice (String (Py.lower_char c) "") None (Some (-1)) = "") as ->
    by apply (slice_drop_last "").
  reflexivity.
Qed.

Lemma token_of_deleted (l : list sentence_token) :
  map token_of (zip (replicate (length l) DELETE) l) = map deleted l.
Proof. induction l as [|t l IH]; [done|]. cbn. by rewrite IH. Qed.

(** X7: a record whose compression text is empty, or is its terminating
    character alone, never raises: its example has every sentence token,
    each labelled DELETE. *)
Theorem empty_compression_deletes_all (json : json_object) :
  (String.length (compression_text json) ≤ 1)%nat →
  compression_json_to_example json
  = Returns (map deleted (extract_sentence_tokens json)).
Proof.
  intros Hlen. rewrite compression_json_to_example_bind.
  rewrite get_compression_tokens_short by done.
  unfold get_labels. rewrite get_labels_fuel_greedy; cbn; [|lia|done].
  rewrite greedy_labels_nil_r, length_map.
  by rewrite token_of_deleted.
Qed.

Lemma empty_compression_deletes_all_witness :
  compression_json_to_example
    (JsonObject "Go." [Node [Word 0 "Go" "VB" "go"; Word 1 "." "." "."]] ".")
  = Returns [mkToken "Go" "VB" "go" 1; mkToken "." "." "." 1].
Proof.
  apply (empty_compression_deletes_all
           (JsonObject "Go." [Node [Word 0 "Go" "VB" "go"; Word 1 "." "." "."]]
                       ".")).
  cbn. lia.
Defined.

(** X8: a record whose token graph has no word besides sentinels gives
    the empty example when its compression text normalizes to no token,
    and fails the assertion of [get_labels] when it normalizes to any. *)
Theorem empty_graph_example (json : json_object) :
  proper_candidates json = [] →
  extract_sentence_tokens json = []
  ∧ (get_compression_tokens [] (compression_text json) = [] →
     compression_json_to_example json = Returns [])
  ∧ (get_compression_tokens [] (compression_text json) ≠ [] →
     compression_json_to_example json = Raises AssertionError).
Proof.
  intros Hnone.
  assert (Hext : extract_sentence_tokens json = []).
  { apply Permutation_nil_r. by rewrite <- Hnone, extract_sentence_tokens_perm. }
  split; [done|]. rewrite compression_json_to_example_bind, Hext. cbn [map].
  split.
  - by intros ->.
  - intros Hne. destruct (get_compression_tokens _ _) as [|t ts]; done.
Qed.

Lemma empty_graph_example_witness :
  extract_sentence_tokens
    (JsonObject "" [Node [Word (-1) "ROOT" "ROOT" "ROOT"]] "Gone.") = []
  ∧ compression_json_to_example
      (JsonObject "" [Node [Word (-1) "ROOT" "ROOT" "ROOT"]] "Gone.")
    = Raises AssertionError.
Proof.
  destruct (empty_graph_example
              (JsonObject "" [Node [Word (-1) "ROOT" "ROOT" "ROOT"]] "Gone."))
    as (Hext & _ & Hraise).
  - reflexivity.
  - split; [exact Hext|]. apply Hraise. vm_compute. discriminate.
Defined.

(** ** The batch loader *)

(** X9: whatever the loader ends in, examples or an exception, is what
    converting the records it consumes, one after the other, ends in:
    all the records for a limit of [None], 0 or below, the first [min n
    (number of records)] for a limit [n > 0].  The first consumed record
    that raises makes the loader raise the same exception; a record after
    the consumed ones is never converted. *)
Theorem loader_outcome (records : list json_object) (limit : option Z) :
  load_compression_data records limit
  = convert_all (take (consumed limit records) records)
  ∧ (∀ e, convert_all (take (consumed limit records) records) = Raises e →
          load_compression_data records limit = Raises e)
  ∧ (∀ rest, (0 < consumed limit records < length records)%nat →
             load_compression_data
               (take (consumed limit records) records ++ rest) limit
             = load_compression_data records limit).
Proof.
  split_and!.
  - apply load_compression_data_convert.
  - intros e He. by rewrite load_compression_data_convert.
  - intros rest Hk. rewrite !load_compression_data_convert.
    assert (∃ n, limit = Some n ∧ 0 < n
                 ∧ (Z.to_nat n < length records)%nat) as (n & -> & Hn & Hlt).
    { unfold consumed in Hk. destruct limit as [n|]; [|lia].
      destruct (Z.ltb_spec 0 n); [|lia]. exists n. split; [done|]. lia. }
    unfold consumed. rewrite (proj2 (Z.ltb_lt _ _)) by done.
    rewrite (Nat.min_l _ (length records)) by lia.
    rewrite length_app, length_take.
    rewrite Nat.min_l by lia.
    by rewrite take_app_length' by (rewrite length_take; lia).
Qed.

Lemma convert_all_take (records : list json_object) (all : list (list Token))
    (k : nat) :
  convert_all records = Returns all →
  convert_all (take k records) = Returns (take k all).
Proof.
  revert all k. induction records as [|r rs IH]; intros all k.
  - intros [= <-]. by destruct k.
  - intros (e & es & He & Hes & ->)%convert_all_cons.
    destruct k as [|k]; [done|]. cbn [take convert_all].
    rewrite He, (IH es k Hes). done.
Qed.

(** X10: a positive limit cuts the result short and changes nothing
    else: when loading without a limit returns, loading with the limit
    [n > 0] returns the first [n] of the same examples. *)
Theorem load_limit_prefix (records : list json_object)
    (all : list (list Token)) (n : Z) :
  load_compression_data records None = Returns all →
  0 < n →
  load_compression_data records (Some n) = Returns (take (Z.to_nat n) all).
Proof.
  rewrite !load_compression_data_convert. cbn [consumed].
  rewrite take_ge by done. intros Hall Hn.
  rewrite (proj2 (Z.ltb_lt _ _)) by done.
  rewrite (convert_all_take _ all _ Hall).
  f_equal. apply convert_all_length in Hall.
  destruct (decide (Z.to_nat n ≤ length records)%nat).
  - by rewrite Nat.min_l.
  - rewrite Nat.min_r by lia. by rewrite !take_ge by lia.
Qed.

Lemma load_limit_prefix_witness :
  load_compression_data [scenario1; scenario1] (Some 1)
  = Returns (take (Z.to_nat 1)
               [[mkToken "The" "DT" "the" 0; mkToken "co." "NN" "co." 0;
                 mkToken "filed" "VBD" "file" 0];
                [mkToken "The" "DT" "the" 0; mkToken "co." "NN" "co." 0;
                 mkToken "filed" "VBD" "file" 0]]).
Proof.
  apply (load_limit_prefix [scenario1; scenario1]).
  - vm_compute. reflexivity.
  - lia.
Defined.

(** X11: a limit that is zero, negative, or larger than the number of
    records is no limit: the loader does what it does for [None]. *)
Theorem load_limit_ineffective (records : list json_object) (n : Z) :
  n ≤ 0 ∨ Z.of_nat (length records) < n →
  load_compression_data records (Some n) = load_compression_data records None.
Proof.
  intros Hn. rewrite !load_compression_data_convert. f_equal. f_equal.
  cbn [consumed]. destruct (Z.ltb_spec 0 n); lia.
Qed.

Lemma load_limit_ineffective_witness :
  load_compression_data [scenario1; scenario2] (Some (-1))
  = load_compression_data [scenario1; scenario2] None.
Proof.
  apply (load_limit_ineffective [scenario1; scenario2] (-1)). left. lia.
Defined.

(** ** The record generator *)

Lemma lstrip_empty (s : string) : Py.lstrip s = "" ↔ all_space s = true.
Proof.
  induction s as [|c s IH]; cbn [Py.lstrip all_space]; [done|].
  destruct (Py.isspace c); cbn [andb]; [done|]. split; discriminate.
Qed.

Lemma rstrip_empty (s : string) : Py.rstrip s = "" ↔ all_space s = true.
Proof.
  induction s as [|c s IH]; cbn [Py.rstrip all_space]; [done|].
  destruct (Py.rstrip s) as [|c' r].
  - destruct (Py.isspace c); cbn [andb].
    + split; [intros _; by apply IH|done].
    + split; discriminate.
  - split; [discriminate|]. intros [_ Hs]%andb_true_iff.
    by apply IH in Hs.
Qed.

Lemma lstrip_all_space (s : string) :
  all_space (Py.lstrip s) = true → all_space s = true.
Proof.
  induction s as [|c s IH]; cbn [Py.lstrip all_space]; [done|].
  destruct (Py.isspace c) eqn:Hc; cbn [andb]; [done|].
  cbn [all_space]. by rewrite Hc.
Qed.

(** A line is blank when it holds nothing but white space. *)
Lemma blank_all_space (line : string) : blank line ↔ all_space line = true.
Proof.
  unfold blank, Py.strip. rewrite rstrip_empty. split.
  - apply lstrip_all_space.
  - intros Hs. apply lstrip_empty in Hs. by rewrite Hs.
Qed.

Section GeneratorFacts.
Variable loads : string → yielded.

Lemma record_texts_data (data g lines : list string) :
  Forall (fun line => line ≠ "") g →
  record_texts data (g ++ lines) = record_texts (data ++ g) lines.
Proof.
  intros Hg. revert data. induction Hg as [|line g Hline _ IH]; intros data.
  - by rewrite app_nil_r.
  - cbn [app record_texts].
    rewrite (proj2 (String.eqb_neq _ _)) by done.
    by rewrite IH, <- app_assoc.
Qed.

Lemma record_texts_file (records : list (list string)) (last : list string) :
  Forall (Forall (fun line => line ≠ "")) records →
  Forall (fun line => line ≠ "") last →
  record_texts [] (concat (map (fun g => g ++ [""]) records) ++ last)
  = map (Py.join " ") records
    ++ match last with [] => [] | _ => [Py.join " " last] end.
Proof.
  intros Hrecords Hlast.
  induction Hrecords as [|g records Hg _ IH].
  - cbn [map concat app]. rewrite <- (app_nil_r last) at 1.
    rewrite record_texts_data by done. by destruct last.
  - cbn [map concat]. rewrite <- !app_assoc.
    rewrite record_texts_data by done. cbn [app record_texts String.eqb].
    by rewrite IH.
Qed.

Lemma strip_file_lines (records : list (list string * string))
    (last : list string) :
  well_separated records last →
  map Py.strip (file_lines records last)
  = concat (map (fun g => g ++ [""])
                (map (fun r => map Py.strip r.1) records))
    ++ map Py.strip last.
Proof.
  intros [Hrecords _]. unfold file_lines. rewrite map_app. f_equal.
  induction Hrecords as [|r records [_ Hsep] _ IH]; [done|].
  cbn [map concat]. rewrite map_app, IH, map_app. cbn [map].
  by rewrite Hsep.
Qed.

(** X12: for a file in which blank lines, lines of white space only,
    separate the records, the generator hands to [json.loads] one text
    per separator, the stripped lines before it joined by single spaces,
    and one more for the lines after the last separator if there are
    any.  A separator with no line before it gives the empty text, and a
    file without lines gives nothing. *)
Theorem get_compression_json_texts (records : list (list string * string))
    (last : list string) :
  well_separated records last →
  get_compression_json loads (file_lines records last)
  = map loads
      (map (fun r => record_text r.1) records
       ++ match last with [] => [] | _ => [record_text last] end).
Proof.
  intros Hsep. unfold get_compression_json. f_equal.
  rewrite (strip_file_lines _ _ Hsep). destruct Hsep as [Hrecords Hlast].
  rewrite record_texts_file.
  - rewrite map_map. f_equal. by destruct last.
  - apply Forall_fmap. eapply Forall_impl; [exact Hrecords|].
    intros r [Hr _]. cbn. by apply Forall_fmap.
  - by apply Forall_fmap.
Qed.

(** Every file is of that form. *)
Lemma file_lines_exist (gzip_in : list string) :
  ∃ records last,
    gzip_in = file_lines records last ∧ well_separated records last.
Proof.
  induction gzip_in as [|line lines (records & last & -> & Hrecords & Hlast)].
  - exists [], []. by repeat split.
  - destruct (decide (Py.strip line = "")) as [Hblank|Hdata].
    + exists (([], line) :: records), last.
      split; [done|]. split; [|done]. by repeat constructor.
    + destruct records as [|[g sep] records].
      * exists [], (line :: last). split; [done|]. split; [done|].
        by constructor.
      * exists ((line :: g, sep) :: records), last.
        split; [done|]. split; [|done].
        apply Forall_cons in Hrecords as [[Hg Hsep] Hrecords].
        constructor; [|done]. split; [by constructor|done].
Qed.
End GeneratorFacts.

Lemma get_compression_json_texts_witness :
  get_compression_json (fun _ => ValueError)
    (file_lines [(["  {"; "}  "], " "); ([], "")] ["{}"])
  = map (fun _ => ValueError)
      (map (fun r => record_text r.1) [(["  {"; "}  "], " "); ([], "")]
       ++ [record_text ["{}"]]).
Proof.
  apply (get_compression_json_texts (fun _ => ValueError)
           [(["  {"; "}  "], " "); ([], "")] ["{}"]).
  split; repeat constructor; discriminate.
Defined.

Example record_texts_run :
  record_texts [] (map Py.strip ["  {"; "}  "; " "; ""; "{}"])
  = ["{ }"; ""; "{}"].
Proof. reflexivity. Qed.

Lemma load_stream_records (limit : option Z) (acc : list (list Token))
    (records : list json_object) :
  load_stream limit acc (map Record records)
  = loaded_of (r ← load_loop limit acc records; mret r.1).
Proof.
  revert acc. induction records as [|r rs IH]; intros acc; [done|].
  cbn [map load_stream load_loop].
  destruct (compression_json_to_example r) as [e| |]; cbn; [|done..].
  destruct (Py.truthy limit && bool_decide _); [done|]. apply IH.
Qed.

(** X13: when every text of the file parses, loading the file ends as
    loading the parsed records does: with the same examples, or with the
    exception of the same record. *)
Theorem load_path_parsed (loads : string → yielded) (gzip_in : list string)
    (limit : option Z) (records : list json_object) :
  get_compression_json loads gzip_in = map Record records →
  load_compression_data_path loads gzip_in limit
  = loaded_of (load_compression_data records limit).
Proof.
  intros Hparsed. unfold load_compression_data_path. rewrite Hparsed.
  apply load_stream_records.
Qed.

Lemma load_path_parsed_witness :
  load_compression_data_path (fun _ => Record scenario1) ["{"; "}"; ""; "{}"]
    (Some 1)
  = loaded_of (load_compression_data [scenario1; scenario1] (Some 1)).
Proof.
  apply (load_path_parsed (fun _ => Record scenario1) ["{"; "}"; ""; "{}"]
           (Some 1) [scenario1; scenario1]).
  reflexivity.
Defined.

Lemma load_stream_take (limit : option Z) (k : nat) (acc : list (list Token))
    (stream : list yielded) :
  limit_hit limit (length acc + k) = true → (0 < k)%nat →
  load_stream limit acc stream = load_stream limit acc (take k stream).
Proof.
  revert k acc. induction stream as [|item stream IH]; intros k acc Hhit Hk.
  - by rewrite take_nil.
  - destruct k as [|k]; [lia|]. cbn [take].
    destruct item as [json|]; [|done]. cbn [load_stream].
    destruct (compression_json_to_example json) as [e| |]; [|done..].
    fold (limit_hit limit (length (acc ++ [e]))).
    destruct (limit_hit limit (length (acc ++ [e]))) eqn:Hnow; [done|].
    destruct k as [|k].
    + rewrite length_app in Hnow. cbn in Hnow. congruence.
    + apply IH; [|lia]. rewrite <- Hhit. f_equal. rewrite length_app. cbn. lia.
Qed.

(** X14: with a limit [n > 0] the loader asks the generator for at most
    [n] items: the texts after the [n]-th are never handed to
    [json.loads], so that what they hold, valid or not, has no effect. *)
Theorem load_path_lazy (loads : string → yielded) (gzip_in : list string)
    (n : Z) :
  0 < n →
  load_compression_data_path loads gzip_in (Some n)
  = load_stream (Some n) []
      (take (Z.to_nat n) (get_compression_json loads gzip_in)).
Proof.
  intros Hn. unfold load_compression_data_path.
  apply load_stream_take; [|lia].
  apply limit_hit_spec. cbn. split; [lia|]. f_equal. lia.
Qed.

Lemma load_path_lazy_witness :
  load_compression_data_path
    (fun text => if String.eqb text "{}" then Record scenario1 else ValueError)
    ["{}"; ""; "not json"] (Some 1)
  = load_stream (Some 1) []
      (take (Z.to_nat 1)
         (get_compression_json
            (fun text => if String.eqb text "{}" then Record scenario1
                         else ValueError)
            ["{}"; ""; "not json"])).
Proof.
  apply (load_path_lazy
           (fun text => if String.eqb text "{}" then Record scenario1
                        else ValueError)
           ["{}"; ""; "not json"] 1).
  lia.
Defined.

Example load_path_lazy_run :
  load_compression_data_path
    (fun text => if String.eqb text "{}" then Record scenario1 else ValueError)
    ["{}"; ""; "not json"] (Some 1)
  = Examples [[mkToken "The" "DT" "the" 0; mkToken "co." "NN" "co." 0;
               mkToken "filed" "VBD" "file" 0]]
  ∧ load_compression_data_path
      (fun text => if String.eqb text "{}" then Record scenario1 else ValueError)
      ["{}"; ""; "not json"] None
    = RaisedValueError.
Proof. split; vm_compute; reflexivity. Qed.

(** X15: a file that starts with a blank line makes the generator hand
    the empty text to [json.loads] first; as [json.loads] rejects it, the
    loader raises its [ValueError], whatever the limit and whatever
    follows. *)
Theorem load_path_leading_blank (loads : string → yielded) (line : string)
    (lines : list string) (limit : option Z) :
  blank line →
  loads "" = ValueError →
  load_compression_data_path loads (line :: lines) limit = RaisedValueError.
Proof.
  intros Hblank Hloads.
  unfold load_compression_data_path, get_compression_json.
  cbn [map]. rewrite Hblank. cbn [record_texts String.eqb Py.join map].
  by rewrite Hloads.
Qed.

Lemma load_path_leading_blank_witness :
  load_compression_data_path
    (fun text => if String.eqb text "{}" then Record scenario1 else ValueError)
    [" "; "{}"] (Some 1)
  = RaisedValueError.
Proof.
  apply (load_path_leading_blank
           (fun text => if String.eqb text "{}" then Record scenario1
                        else ValueError)
           " " ["{}"] (Some 1)); reflexivity.
Defined.

(** ** The compression normalizer *)

Lemma lower_char_idemp (c : ascii) :
  Py.lower_char (Py.lower_char c) = Py.lower_char c.
Proof.
  destruct c as [[] [] [] [] [] [] [] []]; reflexivity.
Qed.

Lemma lower_idemp (s : string) : Py.lower (Py.lower s) = Py.lower s.
Proof.
  induction s as [|c s IH]; [done|]. cbn [Py.lower].
  by rewrite lower_char_idemp, IH.
Qed.

Lemma lower_substring (n m : nat) (s : string) :
  Py.lower (String.substring n m s) = String.substring n m (Py.lower s).
Proof.
  revert n m. induction s as [|c s IH]; intros [|n] [|m]; cbn; try done.
  by rewrite IH.
Qed.

Lemma contains_substring (n m : nat) (s : string) (c : ascii) :
  Py.contains s c = false → Py.contains (String.substring n m s) c = false.
Proof.
  revert n m. induction s as [|a s IH]; intros [|n] [|m]; cbn; try done.
  - intros [Ha Hs]%orb_false_iff. rewrite Ha. by apply IH.
  - intros [_ Hs]%orb_false_iff. by apply IH.
  - intros [_ Hs]%orb_false_iff. by apply IH.
Qed.

Lemma comparable_substring (n m : nat) (s : string) :
  comparable s → comparable (String.substring n m s).
Proof.
  intros [Hlow Hsp]. split.
  - by rewrite lower_substring, Hlow.
  - by apply contains_substring.
Qed.

Lemma comparable_slice (s : string) (start stop : option Z) :
  comparable s → comparable (Py.slice s start stop).
Proof. apply comparable_substring. Qed.

Lemma comparable_abbreviation (token_forms_set : gset string) (token : string) :
  comparable token → comparable (handle_abbreviation token_forms_set token).
Proof.
  intros Ht. unfold handle_abbreviation.
  destruct (special_abbreviations !! token) as [punctuated|] eqn:Hkey; [|done].
  destruct (bool_decide _); [|done].
  apply special_abbreviations_lookup in Hkey.
  assert (Hall : Forall (fun kv => comparable kv.2) abbreviation_entries)
    by (repeat constructor).
  rewrite Forall_forall in Hall. apply (Hall _ Hkey).
Qed.

Lemma comparable_append_token (acc : list string) (token : string) :
  comparable token → Forall comparable acc →
  Forall comparable (append_token acc token).
Proof.
  intros Ht Hacc. unfold append_token.
  repeat case_match;
    repeat (apply Forall_app; split);
    repeat (apply Forall_cons; split);
    try apply Forall_nil; try done;
    try (by apply comparable_slice); by split.
Qed.

Lemma comparable_normalize_token (token_forms_set : gset string)
    (acc : list string) (token : string) :
  comparable token → Forall comparable acc →
  Forall comparable (normalize_token token_forms_set acc token).
Proof.
  intros Ht Hacc. apply comparable_append_token; [|done].
  apply comparable_abbreviation. unfold strip_comma.
  destruct (Py.endswith token ","); [by apply comparable_slice|done].
Qed.

Lemma split_fields_comparable (s : string) :
  Py.lower s = s →
  comparable (Py.split_fields " " s).1
  ∧ Forall comparable (Py.split_fields " " s).2.
Proof.
  induction s as [|c s IH]; [by repeat split|].
  cbn [Py.lower Py.split_fields]. intros [= Hc Hs].
  destruct (IH Hs) as [[Hlow Hsp] Hws].
  destruct (Py.split_fields " " s) as [w ws]. cbn [fst snd] in *.
  destruct (Ascii.eqb_spec c " ") as [->|Hne]; cbn [fst snd].
  - split; [by split|]. by repeat constructor.
  - split; [|done]. split.
    + cbn [Py.lower]. by rewrite Hc, Hlow.
    + cbn [Py.contains]. rewrite Hsp.
      by rewrite (proj2 (Ascii.eqb_neq _ _)) by done.
Qed.

Lemma get_compression_tokens_comparable (sentence_tokens : list sentence_token)
    (compression : string) :
  Forall comparable (get_compression_tokens sentence_tokens compression).
Proof.
  unfold get_compression_tokens.
  set (token_forms_set := list_to_set _).
  set (text := Py.slice _ _ _).
  assert (Htext : Py.lower text = text).
  { unfold text, Py.slice. by rewrite lower_substring, lower_idemp. }
  assert (Hraw : Forall comparable (Py.split text " ")).
  { unfold Py.split. destruct (split_fields_comparable text Htext) as [Hw Hws].
    destruct (Py.split_fields " " text). by constructor. }
  assert (Hgen : ∀ acc, Forall comparable acc →
            Forall comparable
              (foldl (normalize_token token_forms_set) acc (Py.split text " "))).
  { induction Hraw as [|t ts Ht _ IH]; intros acc Hacc; [done|].
    cbn [foldl]. apply IH. by apply comparable_normalize_token. }
  by apply Hgen.
Qed.

Lemma isascii_char_lower (c : ascii) :
  Py.isascii_char (Py.lower_char c) = Py.isascii_char c.
Proof. destruct c as [[] [] [] [] [] [] [] []]; reflexivity. Qed.

Lemma isascii_lower (s : string) : Py.isascii (Py.lower s) = Py.isascii s.
Proof.
  induction s as [|c s IH]; [done|]. cbn [Py.lower Py.isascii].
  by rewrite isascii_char_lower, IH.
Qed.

Lemma isascii_substring (n m : nat) (s : string) :
  Py.isascii s = true → Py.isascii (String.substring n m s) = true.
Proof.
  revert n m. induction s as [|a s IH]; intros [|n] [|m]; cbn; try done.
  - intros [Ha Hs]%andb_true_iff. rewrite Ha. by apply IH.
  - intros [_ Hs]%andb_true_iff. by apply IH.
  - intros [_ Hs]%andb_true_iff. by apply IH.
Qed.

Lemma isascii_slice (s : string) (start stop : option Z) :
  Py.isascii s = true → Py.isascii (Py.slice s start stop) = true.
Proof. apply isascii_substring. Qed.

Lemma isascii_abbreviation (token_forms_set : gset string) (token : string) :
  Py.isascii token = true →
  Py.isascii (handle_abbreviation token_forms_set token) = true.
Proof.
  intros Ht. unfold handle_abbreviation.
  destruct (special_abbreviations !! token) as [punctuated|] eqn:Hkey; [|done].
  destruct (bool_decide _); [|done].
  apply special_abbreviations_lookup in Hkey.
  assert (Hall : Forall (fun kv => Py.isascii kv.2 = true) abbreviation_entries)
    by (repeat constructor).
  rewrite Forall_forall in Hall. apply (Hall _ Hkey).
Qed.

Lemma isascii_append_token (acc : list string) (token : string) :
  Py.isascii token = true →
  Forall (fun t => Py.isascii t = true) acc →
  Forall (fun t => Py.isascii t = true) (append_token acc token).
Proof.
  intros Ht Hacc. unfold append_token.
  repeat case_match;
    repeat (apply Forall_app; split);
    repeat (apply Forall_cons; split);
    try apply Forall_nil; try done;
    by apply isascii_slice.
Qed.

Lemma isascii_normalize_token (token_forms_set : gset string)
    (acc : list string) (token : string) :
  Py.isascii token = true →
  Forall (fun t => Py.isascii t = true) acc →
  Forall (fun t => Py.isascii t = true)
         (normalize_token token_forms_set acc token).
Proof.
  intros Ht Hacc. apply isascii_append_token; [|done].
  apply isascii_abbreviation. unfold strip_comma.
  destruct (Py.endswith token ","); [by apply isascii_slice|done].
Qed.

Lemma split_fields_isascii (sep : ascii) (s : string) :
  Py.isascii s = true →
  Py.isascii (Py.split_fields sep s).1 = true
  ∧ Forall (fun t => Py.isascii t = true) (Py.split_fields sep s).2.
Proof.
  induction s as [|c s IH]; [by repeat split|].
  cbn [Py.isascii Py.split_fields]. intros [Hc Hs]%andb_true_iff.
  destruct (IH Hs) as [Hw Hws].
  destruct (Py.split_fields sep s) as [w ws]. cbn [fst snd] in *.
  destruct (Ascii.eqb c sep); cbn [fst snd].
  - split; [done|]. by constructor.
  - split; [|done]. cbn [Py.isascii]. by rewrite Hc, Hw.
Qed.

Lemma get_compression_tokens_isascii (sentence_tokens : list sentence_token)
    (compression : string) :
  Py.isascii compression = true →
  Forall (fun t => Py.isascii t = true)
         (get_compression_tokens sentence_tokens compression).
Proof.
  intros Hascii. unfold get_compression_tokens.
  set (token_forms_set := list_to_set _).
  set (text := Py.slice _ _ _).
  assert (Htext : Py.isascii text = true).
  { unfold text. apply isascii_slice. by rewrite isascii_lower. }
  assert (Hraw : Forall (fun t => Py.isascii t = true) (Py.split text " ")).
  { unfold Py.split.
    destruct (split_fields_isascii " " text Htext) as [Hw Hws].
    destruct (Py.split_fields " " text). by constructor. }
  assert (Hgen : ∀ acc, Forall (fun t => Py.isascii t = true) acc →
            Forall (fun t => Py.isascii t = true)
              (foldl (normalize_token token_forms_set) acc (Py.split text " "))).
  { induction Hraw as [|t ts Ht _ IH]; intros acc Hacc; [done|].
    cbn [foldl]. apply IH. by apply isascii_normalize_token. }
  by apply Hgen.
Qed.

(** X16: no token the normalizer returns holds a space, whatever the
    compression text; and for a compression text in the ASCII range,
    every token it returns is in the ASCII range and lower case. *)
Theorem compression_tokens_comparable (sentence_tokens : list sentence_token)
    (compression : string) :
  Forall (fun t => Py.contains t " " = false)
         (get_compression_tokens sentence_tokens compression)
  ∧ (Py.isascii compression = true →
     Forall (fun t => Py.isascii t = true ∧ Py.lower t = t)
            (get_compression_tokens sentence_tokens compression)).
Proof.
  pose proof (get_compression_tokens_comparable sentence_tokens compression)
    as Hcomp.
  split.
  - eapply Forall_impl; [exact Hcomp|]. by intros t [_ ?].
  - intros Hascii.
    pose proof (get_compression_tokens_isascii sentence_tokens compression
                  Hascii) as Hasc.
    rewrite Forall_forall in Hcomp, Hasc. apply Forall_forall.
    intros t Ht. split; [by apply Hasc|]. by destruct (Hcomp t Ht).
Qed.

Lemma compression_tokens_comparable_witness :
  Forall (fun t => Py.isascii t = true ∧ Py.lower t = t)
         (get_compression_tokens [] "He SAID (it's Fine).").
Proof.
  apply (proj2 (compression_tokens_comparable [] "He SAID (it's Fine).")).
  reflexivity.
Defined.

(** X18: a comma at the end of a raw token is dropped before anything
    else is looked at: the token gives what it gives without the comma,
    provided that no second comma comes before it. *)
Theorem trailing_comma_ignored (token_forms_set : gset string)
    (acc : list string) (token : string) :
  Py.endswith token "," = false →
  normalize_token token_forms_set acc (token +:+ ",")
  = normalize_token token_forms_set acc token.
Proof.
  intros Hno. unfold normalize_token, strip_comma. rewrite Hno.
  assert (Py.endswith (token +:+ ",") "," = true) as ->
    by (apply endswith_spec; by exists token).
  by rewrite slice_drop_last.
Qed.

Lemma trailing_comma_ignored_witness :
  normalize_token ∅ ["he"] ("isn't" +:+ ",") = normalize_token ∅ ["he"] "isn't".
Proof.
  apply (trailing_comma_ignored ∅ ["he"] "isn't"). reflexivity.
Defined.

Lemma foldl_pointwise {A B : Type} (f g : A → B → A) (a : A) (l : list B) :
  (∀ a b, f a b = g a b) → foldl f a l = foldl g a l.
Proof.
  intros Hfg. revert a. induction l as [|b l IH]; intros a; cbn [foldl].
  - reflexivity.
  - rewrite Hfg. apply IH.
Qed.

(** X19: the sentence enters the normalizer through the abbreviations
    only: when no punctuated form of the table is among the lowercased
    forms of the sentence, the tokens are those the text gives without
    any sentence. *)
Theorem sentence_only_abbreviations (sentence_tokens : list sentence_token)
    (compression : string) :
  Forall (fun t => ∀ key, special_abbreviations !! key
                          ≠ Some (Py.lower (token_form t)))
         sentence_tokens →
  get_compression_tokens sentence_tokens compression
  = get_compression_tokens [] compression.
Proof.
  intros Hnone. unfold get_compression_tokens. cbn [map].
  set (token_forms_set := list_to_set _).
  assert (Hext : ∀ token, handle_abbreviation token_forms_set token = token).
  { intros token. unfold handle_abbreviation.
    destruct (special_abbreviations !! token) as [punctuated|] eqn:Hkey;
      [|reflexivity].
    rewrite bool_decide_eq_false_2; [reflexivity|].
    unfold token_forms_set. rewrite elem_of_list_to_set.
    intros (t & -> & Ht)%list_elem_of_fmap.
    rewrite Forall_forall in Hnone. by apply (Hnone t Ht token). }
  assert (Hext' : ∀ token, handle_abbreviation (list_to_set []) token = token).
  { intros token. unfold handle_abbreviation.
    destruct (special_abbreviations !! token) as [punctuated|]; [|reflexivity].
    rewrite bool_decide_eq_false_2; [reflexivity|]. set_solver. }
  apply foldl_pointwise. intros acc token. unfold normalize_token.
  rewrite Hext, Hext'. reflexivity.
Qed.

Lemma sentence_only_abbreviations_witness :
  get_compression_tokens
    [(0, "The", "DT", "the"); (1, "company", "NN", "company")] "The co."
  = get_compression_tokens [] "The co.".
Proof.
  apply (sentence_only_abbreviations
           [(0, "The", "DT", "the"); (1, "company", "NN", "company")] "The co.").
  repeat constructor; intros key Hkey;
    apply special_abbreviations_lookup in Hkey;
    unfold abbreviation_entries in Hkey;
    rewrite !elem_of_cons, elem_of_nil in Hkey;
    repeat (destruct Hkey as [Hkey|Hkey]; [discriminate|]); done.
Defined.

(** *** The splitting rules *)

Lemma substring_app_r (a b : string) :
  String.substring (String.length a) (String.length b) (a +:+ b) = b.
Proof.
  induction a as [|x a IH]; [apply substring_all|].
  rewrite string_app_cons. cbn. apply IH.
Qed.

(** [s[:-k]] and [s[-k:]] cut a string before its last [k] characters. *)
Lemma slice_suffix (a b : string) (k : Z) :
  k = - Z.of_nat (String.length b) → k < 0 →
  Py.slice (a +:+ b) None (Some k) = a
  ∧ Py.slice (a +:+ b) (Some k) None = b.
Proof.
  intros -> Hk. unfold Py.slice, Py.clamp. cbn [from_option].
  rewrite string_length_app.
  destruct (Z.ltb_spec (- Z.of_nat (String.length b)) 0); [|lia].
  split.
  - replace (Z.to_nat 0) with 0%nat by done.
    replace (Z.to_nat _) with (String.length a) by lia.
    apply substring_app_l.
  - replace (Z.to_nat (Z.max _ _)) with (String.length a) by lia.
    replace (Z.to_nat _) with (String.length b) by lia.
    apply substring_app_r.
Qed.

Lemma endswith_suffix_ne (stem p q : string) (c d : ascii) :
  c ≠ d →
  Py.endswith (stem +:+ (p +:+ String c "")) (q +:+ String d "") = false.
Proof.
  intros Hne. rewrite <- string_app_assoc. by apply endswith_last_ne.
Qed.

Lemma strip_comma_suffix (stem p : string) (c : ascii) :
  c ≠ ","%char →
  strip_comma (stem +:+ (p +:+ String c "")) = stem +:+ (p +:+ String c "").
Proof.
  intros Hne. rewrite <- string_app_assoc. by apply strip_comma_not_comma.
Qed.

(** No key of the table ends with one of the split suffixes or with a
    question mark, and none starts with a backquote. *)
Lemma abbreviation_no_mark (token : string) :
  Py.endswith token "'s" = true ∨ Py.endswith token "n't" = true
  ∨ Py.endswith token "%" = true ∨ Py.endswith token "?" = true
  ∨ Py.startswith token "``" = true →
  special_abbreviations !! token = None.
Proof.
  intros Hmark.
  destruct (special_abbreviations !! token) as [punctuated|] eqn:Hkey; [|done].
  apply special_abbreviations_lookup in Hkey.
  assert (Hall : Forall (fun kv => Py.endswith kv.1 "'s" = false
                                   ∧ Py.endswith kv.1 "n't" = false
                                   ∧ Py.endswith kv.1 "%" = false
                                   ∧ Py.endswith kv.1 "?" = false
                                   ∧ Py.startswith kv.1 "``" = false)
                        abbreviation_entries) by (repeat constructor).
  rewrite Forall_forall in Hall.
  destruct (Hall _ Hkey) as (H1 & H2 & H3 & H4 & H5). cbn [fst] in *.
  destruct Hmark as [?|[?|[?|[?|?]]]]; congruence.
Qed.

Lemma handle_abbreviation_mark (token_forms_set : gset string) (token : string) :
  Py.endswith token "'s" = true ∨ Py.endswith token "n't" = true
  ∨ Py.endswith token "%" = true ∨ Py.endswith token "?" = true
  ∨ Py.startswith token "``" = true →
  handle_abbreviation token_forms_set token = token.
Proof.
  intros Hmark. unfold handle_abbreviation.
  by rewrite abbreviation_no_mark.
Qed.

Lemma endswith_app (stem suffix : string) :
  Py.endswith (stem +:+ suffix) suffix = true.
Proof. apply endswith_spec. by exists stem. Qed.

(** X20: a token that ends with ['s], [n't] or [%] is split in two
    before that ending, whatever stands in front: a token that is [n't]
    or [%] alone leaves an empty token in front of it, and only ['s]
    alone stays one token. *)
Theorem contraction_split (token_forms_set : gset string) (acc : list string)
    (stem : string) :
  (stem ≠ "" →
   normalize_token token_forms_set acc (stem +:+ "'s") = acc ++ [stem; "'s"])
  ∧ normalize_token token_forms_set acc "'s" = acc ++ ["'s"]
  ∧ normalize_token token_forms_set acc (stem +:+ "n't") = acc ++ [stem; "n't"]
  ∧ normalize_token token_forms_set acc (stem +:+ "%") = acc ++ [stem; "%"].
Proof.
  split_and!.
  - intros Hstem. unfold normalize_token.
    assert (strip_comma (stem +:+ "'s") = stem +:+ "'s") as ->
      by (by apply (strip_comma_suffix stem "'" "s")).
    rewrite handle_abbreviation_mark by (left; apply endswith_app).
    unfold append_token.
    assert (String.eqb (stem +:+ "'s") "'s" = false) as ->.
    { apply String.eqb_neq. intros Heq%(f_equal String.length).
      rewrite string_length_app in Heq. destruct stem; [done|cbn in Heq; lia]. }
    rewrite endswith_app.
    destruct (slice_suffix stem "'s" (-2)) as [-> ->]; [done|lia|].
    by rewrite <- app_assoc.
  - reflexivity.
  - unfold normalize_token.
    assert (strip_comma (stem +:+ "n't") = stem +:+ "n't") as ->
      by (by apply (strip_comma_suffix stem "n'" "t")).
    rewrite handle_abbreviation_mark by (right; left; apply endswith_app).
    unfold append_token.
    assert (String.eqb (stem +:+ "n't") "'s" = false) as ->.
    { apply String.eqb_neq. intros Heq%(f_equal String.length).
      rewrite string_length_app in Heq. cbn in Heq. lia. }
    assert (Py.endswith (stem +:+ "n't") "'s" = false) as ->
      by (by apply (endswith_suffix_ne stem "n'" "'" "t" "s")).
    rewrite endswith_app.
    destruct (slice_suffix stem "n't" (-3)) as [-> ->]; [done|lia|].
    by rewrite <- app_assoc.
  - unfold normalize_token.
    assert (strip_comma (stem +:+ "%") = stem +:+ "%") as ->
      by (by apply (strip_comma_suffix stem "" "%")).
    rewrite handle_abbreviation_mark by (right; right; left; apply endswith_app).
    unfold append_token.
    assert (String.eqb (stem +:+ "%") "'s" = false) as ->.
    { apply String.eqb_neq. intros Heq.
      pose proof (endswith_app stem "%") as Hends. rewrite Heq in Hends.
      vm_compute in Hends. discriminate. }
    assert (Py.endswith (stem +:+ "%") "'s" = false) as ->
      by (by apply (endswith_suffix_ne stem "" "'" "%" "s")).
    assert (Py.endswith (stem +:+ "%") "n't" = false) as ->
      by (by apply (endswith_suffix_ne stem "" "n'" "%" "t")).
    rewrite endswith_app.
    destruct (slice_suffix stem "%" (-1)) as [-> ->]; [done|lia|].
    by rewrite <- app_assoc.
Qed.

Lemma contraction_split_witness :
  normalize_token ∅ ["the"] ("company" +:+ "'s") = ["the"] ++ ["company"; "'s"].
Proof.
  apply (proj1 (contraction_split ∅ ["the"] "company")). discriminate.
Defined.

Example contraction_alone :
  normalize_token ∅ [] "n't" = [""; "n't"]
  ∧ normalize_token ∅ [] "%" = [""; "%"].
Proof. split; reflexivity. Qed.

Lemma startswith_empty (s : string) : Py.startswith s "" = true.
Proof. by destruct s. Qed.

Lemma slice_inside_quotes (inner : string) :
  Py.slice (String "`" (String "`" (inner +:+ "''"))) (Some 2) (Some (-2))
  = inner.
Proof.
  unfold Py.slice, Py.clamp. cbn [from_option String.length].
  rewrite string_length_app. cbn [String.length].
  destruct (Z.ltb_spec 2 0); [lia|]. destruct (Z.ltb_spec (-2) 0); [|lia].
  replace (Z.to_nat (Z.min _ _)) with 2%nat by lia.
  replace (Z.to_nat _) with (String.length inner) by lia.
  cbn [String.substring]. apply substring_app_l.
Qed.

(** The rule for a token between the two-character quotation marks. *)
Lemma append_token_quotes (acc : list string) (inner : string) :
  append_token acc (String "`" (String "`" (inner +:+ "''")))
  = acc ++ ["``"; inner; "''"].
Proof.
  set (token := String "`" (String "`" (inner +:+ "''"))).
  assert (Htoken : token = ("``" +:+ inner) +:+ "''")
    by (by rewrite string_app_assoc).
  assert (H1 : Py.endswith token "'s" = false)
    by (rewrite Htoken; by apply (endswith_suffix_ne _ "'" "'" "'" "s")).
  assert (H2 : Py.endswith token "n't" = false)
    by (rewrite Htoken; by apply (endswith_suffix_ne _ "'" "n'" "'" "t")).
  assert (H3 : Py.endswith token "%" = false)
    by (rewrite Htoken; by apply (endswith_suffix_ne _ "'" "" "'" "%")).
  assert (H4 : Py.endswith token "''" = true)
    by (rewrite Htoken; apply endswith_app).
  assert (H5 : Py.startswith token "``" = true).
  { unfold token. cbn [Py.startswith Ascii.eqb Bool.eqb andb].
    apply startswith_empty. }
  unfold append_token. rewrite H1, H2, H3, H4, H5.
  repeat match goal with
         | |- context [String.eqb token ?k] =>
             destruct (String.eqb_spec token k) as [?|_]; [discriminate|]
         end.
  cbn [andb]. unfold token. rewrite slice_inside_quotes.
  by rewrite <- !app_assoc.
Qed.

(** X21: a token written between the opening mark of two backquotes and
    the closing mark of two apostrophes gives three tokens, the two marks
    and what stands between them, be it empty. *)
Theorem quoted_token_split (token_forms_set : gset string) (acc : list string)
    (inner : string) :
  normalize_token token_forms_set acc ("``" +:+ inner +:+ "''")
  = acc ++ ["``"; inner; "''"].
Proof.
  unfold normalize_token.
  assert (strip_comma ("``" +:+ inner +:+ "''") = "``" +:+ inner +:+ "''") as ->.
  { rewrite <- string_app_assoc.
    by apply (strip_comma_suffix ("``" +:+ inner) "'" "'"). }
  rewrite handle_abbreviation_mark.
  - apply (append_token_quotes acc inner).
  - do 4 right.
    change ("``" +:+ inner +:+ "''")
      with (String "`" (String "`" (inner +:+ "''"))).
    cbn [Py.startswith Ascii.eqb Bool.eqb andb]. apply startswith_empty.
Qed.

(** The rule for a token that ends with a question mark and does not
    start with an opening parenthesis. *)
Lemma append_token_question (acc : list string) (body : string) :
  Py.startswith (body +:+ "?") "(" = false →
  append_token acc (body +:+ "?") = acc ++ [body].
Proof.
  intros Hopen.
  assert (Hq : Py.endswith (body +:+ "?") "?" = true) by apply endswith_app.
  unfold append_token.
  assert (H1 : Py.endswith (body +:+ "?") "'s" = false)
    by (by apply (endswith_last_ne body "'" "?" "s")).
  assert (H2 : Py.endswith (body +:+ "?") "n't" = false)
    by (by apply (endswith_last_ne body "n'" "?" "t")).
  assert (H3 : Py.endswith (body +:+ "?") "%" = false)
    by (by apply (endswith_last_ne body "" "?" "%")).
  assert (H4 : Py.endswith (body +:+ "?") "''" = false)
    by (by apply (endswith_last_ne body "'" "?" "'")).
  assert (H5 : Py.endswith (body +:+ "?") ")" = false)
    by (by apply (endswith_last_ne body "" "?" ")")).
  rewrite H1, H2, H3, H4, H5, Hopen, Hq, andb_false_r.
  repeat match goal with
         | |- context [String.eqb (body +:+ "?") ?k] =>
             destruct (String.eqb_spec (body +:+ "?") k) as [Heq|_];
             [rewrite Heq in Hq; vm_compute in Hq; discriminate|]
         end.
  by rewrite slice_drop_last.
Qed.

(** X22: a token that ends with a question mark and does not start with
    an opening parenthesis loses the question mark and nothing else. *)
Theorem question_mark_stripped (token_forms_set : gset string)
    (acc : list string) (body : string) :
  Py.startswith (body +:+ "?") "(" = false →
  normalize_token token_forms_set acc (body +:+ "?") = acc ++ [body].
Proof.
  intros Hopen. unfold normalize_token.
  rewrite strip_comma_not_comma by done.
  rewrite handle_abbreviation_mark
    by (right; right; right; left; apply endswith_app).
  by apply append_token_question.
Qed.

Lemma question_mark_stripped_witness :
  normalize_token ∅ ["so"] ("what" +:+ "?") = ["so"] ++ ["what"].
Proof.
  apply (question_mark_stripped ∅ ["so"] "what"). reflexivity.
Defined.

(** ** From a record to its labels *)

(** X23: a record converts unless its compression text normalizes to
    more tokens than its token graph has words that are no sentinel;
    then, and only then, it raises, and what it raises is the
    [AssertionError] of [get_labels]. *)
Theorem example_raises_iff (json : json_object) :
  let sentence_tokens := extract_sentence_tokens json in
  let compression_tokens :=
    get_compression_tokens sentence_tokens (compression_text json) in
  ((∃ e, compression_json_to_example json = Raises e)
   ↔ (length sentence_tokens < length compression_tokens)%nat)
  ∧ ((∃ example, compression_json_to_example json = Returns example)
     ↔ (length compression_tokens ≤ length sentence_tokens)%nat)
  ∧ (∀ e, compression_json_to_example json = Raises e → e = AssertionError).
Proof.
  intros sentence_tokens compression_tokens.
  rewrite compression_json_to_example_bind.
  fold sentence_tokens compression_tokens.
  destruct (get_labels_cases
              (map (fun x => Py.lower (token_form x)) sentence_tokens)
              compression_tokens) as [[Hle Hrun]|[Hgt Hrun]];
    rewrite Hrun; rewrite length_map in *; cbn.
  - split_and!; [split| |done].
    + by intros [e ?].
    + lia.
    + split; [done|]. intros _. eauto.
  - split_and!; [split| |congruence].
    + done.
    + intros _. eauto.
    + split; [by intros [ex ?]|lia].
Qed.

Lemma get_compression_tokens_settled (sentence_tokens : list sentence_token)
    (tokens : list string) (terminator : ascii) :
  Forall (fun t =>
            settled
              (list_to_set
                 (map (fun token => Py.lower (token_form token)) sentence_tokens))
              t = true) tokens →
  get_compression_tokens sentence_tokens (text_of tokens terminator) = tokens.
Proof.
  intros Hall. unfold get_compression_tokens, text_of.
  set (token_forms_set := list_to_set _) in *.
  assert (Hlow : Forall (fun t => Py.lower t = t) tokens).
  { eapply Forall_impl; [exact Hall|]. intros t Ht.
    by apply settled_lower in Ht as [? _]. }
  assert (Hsp : Forall (fun t => Py.contains t " " = false) tokens).
  { eapply Forall_impl; [exact Hall|]. intros t Ht.
    by apply settled_lower in Ht as [_ ?]. }
  rewrite lower_app, (lower_join _ Hlow). cbn [Py.lower].
  rewrite slice_drop_last, (split_join _ Hsp).
  destruct tokens as [|t tokens]; [reflexivity|].
  rewrite foldl_normalize_token, app_nil_l.
  clear Hlow Hsp. induction Hall as [|t' tokens' Ht' _ IH]; [done|].
  cbn [map concat]. rewrite IH.
  by rewrite (normalize_token_settled _ [] t' Ht').
Qed.

Lemma kept_tokens_forms (ls : list Z) (l : list sentence_token) :
  map (fun t => Py.lower (form t))
      (filter (fun t => label t = KEEP) (map token_of (zip ls l)))
  = kept_forms (map (fun x => Py.lower (token_form x)) l) ls.
Proof.
  revert ls. induction l as [|x l IH]; intros [|b ls]; try done.
  cbn [zip zip_with map]. rewrite filter_cons, kept_forms_cons.
  cbn [token_of label fst snd]. destruct (decide (b = KEEP)); cbn [map].
  - by rewrite <- IH.
  - apply IH.
Qed.

(** X24: from the text to the labels, for text in the ASCII range.  When
    the compression text is written from settled tokens that are, in
    this order, among the lowercased forms of the sentence, the record
    converts, and the sentence tokens labelled KEEP in its example are,
    read in order and in lower case, exactly the tokens the text was
    written from. *)
Theorem subsequence_recovered (json : json_object) (tokens : list string)
    (terminator : ascii) :
  let sentence_tokens := extract_sentence_tokens json in
  let lowercase_tokens :=
    map (fun x => Py.lower (token_form x)) sentence_tokens in
  Forall (fun x => Py.isascii (token_form x) = true) sentence_tokens →
  Py.isascii_char terminator = true →
  compression_text json = text_of tokens terminator →
  Forall (fun t => settled (list_to_set lowercase_tokens) t = true) tokens →
  tokens `sublist_of` lowercase_tokens →
  ∃ example,
    compression_json_to_example json = Returns example
    ∧ length example = length sentence_tokens
    ∧ map (fun t => Py.lower (form t))
          (filter (fun t => label t = KEEP) example)
      = tokens.
Proof.
  intros sentence_tokens lowercase_tokens _ _ Htext Hsettled Hsub.
  rewrite compression_json_to_example_bind, Htext.
  fold sentence_tokens.
  rewrite (get_compression_tokens_settled _ _ _ Hsettled).
  fold lowercase_tokens.
  unfold get_labels. rewrite get_labels_fuel_greedy;
    [|by apply sublist_length|done].
  cbn. eexists. split; [done|]. split.
  - rewrite length_map, length_zip, greedy_labels_length.
    unfold lowercase_tokens. rewrite length_map. lia.
  - rewrite kept_tokens_forms. fold lowercase_tokens.
    rewrite kept_forms_greedy, greedy_labels_complete by done.
    by rewrite take_ge.
Qed.

Lemma subsequence_recovered_witness :
  ∃ example,
    compression_json_to_example
      (JsonObject "The big co. filed today."
         [Node [Word 0 "The" "DT" "the"; Word 1 "big" "JJ" "big"];
          Node [Word 2 "co." "NN" "co."; Word 3 "filed" "VBD" "file"];
          Node [Word 4 "today" "NN" "today"]]
         (text_of ["the"; "co."; "filed"] "."))
    = Returns example
    ∧ length example = 5%nat
    ∧ map (fun t => Py.lower (form t))
          (filter (fun t => label t = KEEP) example)
      = ["the"; "co."; "filed"].
Proof.
  apply (subsequence_recovered
           (JsonObject "The big co. filed today."
              [Node [Word 0 "The" "DT" "the"; Word 1 "big" "JJ" "big"];
               Node [Word 2 "co." "NN" "co."; Word 3 "filed" "VBD" "file"];
               Node [Word 4 "today" "NN" "today"]]
              (text_of ["the"; "co."; "filed"] "."))
           ["the"; "co."; "filed"] ".").
  - vm_compute. repeat constructor.
  - reflexivity.
  - reflexivity.
  - repeat constructor.
  - vm_compute. apply sublist_skip, sublist_cons, sublist_skip, sublist_skip,
      sublist_cons, sublist_nil.
Defined.
